(** * Gallery store and gallery manager: a shallow embedding

    The development follows [src/lib/gallery-store.ts] (the storage
    adapter over [localStorage]), the handlers of
    [src/components/gallery-manager.tsx] (the in-memory editor) and those
    of [src/components/edit-gallery-item.tsx] (the item editor dialog).

    JavaScript numbers that the code uses as identifiers, indices and
    order values are integers here ([Z]); optional fields are [option];
    exceptions and the mutable browser state are threaded through a small
    state-and-exception monad. *)

From Stdlib Require Import ZArith Lia.
From stdpp Require Import base gmap strings list sorting.

Local Open Scope string_scope.
Local Open Scope list_scope.
Local Open Scope Z_scope.

(** ** Data model ([gallery-store.ts], lines 6-17) *)

Record GalleryItem := mkItem {
  id : Z;
  imageUrl : string;
  title : string;
  description : string;
  alt : option string;
  order : option Z;
  featured : option bool
}.

Inductive GalleryType := hero | eventos | actividades | propuestas_accion.

(** Object spread with one overridden field: [{ ...item, order: o }],
    [{ ...item, featured: b }], and the assignment [item.imageUrl = u]. *)
Definition set_order (o : Z) (item : GalleryItem) : GalleryItem :=
  mkItem (id item) (imageUrl item) (title item) (description item)
         (alt item) (Some o) (featured item).

Definition set_featured (b : bool) (item : GalleryItem) : GalleryItem :=
  mkItem (id item) (imageUrl item) (title item) (description item)
         (alt item) (order item) (Some b).

Definition set_imageUrl (u : string) (item : GalleryItem) : GalleryItem :=
  mkItem (id item) u (title item) (description item)
         (alt item) (order item) (featured item).

(** ** The browser as the code sees it *)

(** A text held by [localStorage].  [JsonText items] is the text that
    [JSON.stringify] produces for an array of items and that [JSON.parse]
    reads back as that array.  [OtherText raw] is any other text: reading
    it as an array of items throws (for the empty text the code does not
    even try: it is falsy). *)
Inductive StoredText :=
  | JsonText (items : list GalleryItem)
  | OtherText (raw : string).

Inductive Exn :=
  | SyntaxError (raw : string)
  | QuotaExceededError (key : string)
  | ItemNotFound (item_id : Z) (galleryType : GalleryType)
  | FetchError (url : string)
  | CallbackError (message : string).

(** What [console.error] was called with. *)
Inductive ConsoleEntry :=
  | ErrorLoading (galleryType : GalleryType) (error : Exn)
  | ErrorSaving (galleryType : GalleryType) (error : Exn)
  | ErrorUpdating (galleryType : GalleryType) (error : Exn)
  | ErrorReordering (galleryType : GalleryType) (error : Exn)
  | ErrorBlobToBase64 (error : Exn)
  | ErrorAddImage (error : Exn).

(** The [detail] of a dispatched ["gallery-updated"] event. *)
Record GalleryUpdated := mkEvent {
  detail_type : GalleryType;
  detail_items : list GalleryItem
}.

Record World := mkWorld {
  (** [typeof window !== "undefined"] *)
  window_defined : bool;
  localStorage : gmap string StoredText;
  (** whether [localStorage.setItem key text] is accepted (quota) *)
  storage_accepts : string -> StoredText -> bool;
  (** events dispatched on [window], oldest first *)
  dispatched : list GalleryUpdated;
  (** calls of [console.error], oldest first *)
  console : list ConsoleEntry;
  (** [Date.now()] *)
  clock : Z;
  (** [fetch(url)], [response.blob()] and [fileToDataUrl] in a row:
      the data URL, or the failure *)
  blob_to_data_url : string -> Exn + string
}.

(** ** State and exceptions *)

(** How a piece of code ends.  [Untyped] marks a run that has built a
    value outside its TypeScript type (an array slot without an item);
    the embedding says nothing about what follows, and no handler
    recovers from it. *)
Inductive Outcome (A : Type) :=
  | Returned (a : A)
  | Threw (e : Exn)
  | Untyped.
Arguments Returned {A} a.
Arguments Threw {A} e.
Arguments Untyped {A}.

Definition Js (St A : Type) : Type := St -> Outcome A * St.

Definition ret {St A} (a : A) : Js St A := fun s => (Returned a, s).

Definition bind {St A B} (k : A -> Js St B) (m : Js St A) : Js St B :=
  fun s => match m s with
           | (Returned a, s') => k a s'
           | (Threw e, s') => (Threw e, s')
           | (Untyped, s') => (Untyped, s')
           end.

#[global] Instance Js_ret {St} : MRet (Js St) := @ret St.
#[global] Instance Js_bind {St} : MBind (Js St) := @bind St.

Definition throw {St A} (e : Exn) : Js St A := fun s => (Threw e, s).
Definition untyped {St A} : Js St A := fun s => (Untyped, s).

Definition try_catch {St A} (body : Js St A) (handler : Exn -> Js St A) : Js St A :=
  fun s => match body s with
           | (Returned a, s') => (Returned a, s')
           | (Threw e, s') => handler e s'
           | (Untyped, s') => (Untyped, s')
           end.

(** [try { body } finally { cleanup }]: the cleanup runs on both exits. *)
Definition try_finally {St A} (body : Js St A) (cleanup : Js St unit) : Js St A :=
  fun s => match body s with
           | (Untyped, s') => (Untyped, s')
           | (r, s') => match cleanup s' with
                        | (Returned _, s'') => (r, s'')
                        | (Threw e, s'') => (Threw e, s'')
                        | (Untyped, s'') => (Untyped, s'')
                        end
           end.

Definition gets {St A} (f : St -> A) : Js St A := fun s => (Returned (f s), s).
Definition modify {St} (f : St -> St) : Js St unit := fun s => (Returned tt, f s).

(** [array.map(f)] with a callback that may throw: left to right, the
    first exception leaves the loop. *)
Fixpoint map_indexed {St A B} (f : A -> nat -> Js St B) (index : nat) (l : list A)
  : Js St (list B) :=
  match l with
  | [] => ret []
  | x :: rest =>
      y ← f x index;
      ys ← map_indexed f (S index) rest;
      ret (y :: ys)
  end.

(** [array.forEach(f)]: left to right, an exception leaves the loop. *)
Fixpoint for_each {St A} (f : A -> Js St unit) (l : list A) : Js St unit :=
  match l with
  | [] => ret tt
  | x :: rest => f x;; for_each f rest
  end.

(** ** Browser primitives *)

Definition set_localStorage (m : gmap string StoredText) (w : World) : World :=
  mkWorld (window_defined w) m (storage_accepts w) (dispatched w) (console w)
          (clock w) (blob_to_data_url w).

Definition log_error (entry : ConsoleEntry) (w : World) : World :=
  mkWorld (window_defined w) (localStorage w) (storage_accepts w) (dispatched w)
          (console w ++ [entry]) (clock w) (blob_to_data_url w).

Definition log_event (ev : GalleryUpdated) (w : World) : World :=
  mkWorld (window_defined w) (localStorage w) (storage_accepts w)
          (dispatched w ++ [ev]) (console w) (clock w) (blob_to_data_url w).

Definition localStorage_getItem (key : string) : Js World (option StoredText) :=
  gets (fun w => localStorage w !! key).

Definition localStorage_setItem (key : string) (text : StoredText) : Js World unit :=
  fun w => if storage_accepts w key text
           then (Returned tt, set_localStorage (<[key := text]> (localStorage w)) w)
           else (Threw (QuotaExceededError key), w).

Definition console_error (entry : ConsoleEntry) : Js World unit :=
  modify (log_error entry).

Definition dispatchEvent (ev : GalleryUpdated) : Js World unit :=
  modify (log_event ev).

Definition JSON_stringify (items : list GalleryItem) : StoredText := JsonText items.

Definition JSON_parse (text : StoredText) : Js World (list GalleryItem) :=
  match text with
  | JsonText items => ret items
  | OtherText raw => throw (SyntaxError raw)
  end.

(** [if (storedItems)]: the empty string is falsy. *)
Definition truthy (text : StoredText) : bool :=
  match text with
  | OtherText EmptyString => false
  | _ => true
  end.

(** [`gallery-${galleryType}`] *)
Definition galleryType_name (galleryType : GalleryType) : string :=
  match galleryType with
  | hero => "hero"
  | eventos => "eventos"
  | actividades => "actividades"
  | propuestas_accion => "propuestas-accion"
  end.

Definition storage_key (galleryType : GalleryType) : string :=
  "gallery-" +:+ galleryType_name galleryType.

(** ** The store ([gallery-store.ts]) *)

Module Store.

(** [INITIAL_GALLERIES], lines 20-95. *)
Definition INITIAL_GALLERIES (galleryType : GalleryType) : list GalleryItem :=
  match galleryType with
  | hero =>
      [ mkItem 1 "/placeholder.svg?height=600&width=800"
          "Julia Villagómez en campaña"
          "Trabajando por un mejor futuro para nuestra comunidad"
          (Some "Julia Villagómez en campaña") (Some 0) None;
        mkItem 2 "/placeholder.svg?height=600&width=800"
          "Reunión con la comunidad"
          "Escuchando las necesidades de los ciudadanos"
          (Some "Reunión con la comunidad") (Some 1) None;
        mkItem 3 "/placeholder.svg?height=600&width=800"
          "Propuestas para el futuro"
          "Presentando nuestras propuestas para el desarrollo"
          (Some "Propuestas para el futuro") (Some 2) None ]
  | eventos =>
      [ mkItem 1 "/placeholder.svg?height=400&width=600"
          "Visita a la comunidad"
          "Reunión con líderes comunitarios para discutir necesidades locales."
          None (Some 0) None;
        mkItem 2 "/placeholder.svg?height=400&width=600"
          "Evento comunitario"
          "Participación en evento comunitario local."
          None (Some 1) None ]
  | actividades =>
      [ mkItem 1 "/placeholder.svg?height=400&width=600"
          "Foro político"
          "Participación en foro sobre políticas públicas."
          None (Some 0) None;
        mkItem 2 "/placeholder.svg?height=400&width=600"
          "Reunión de trabajo"
          "Reunión con equipo de trabajo para planificar estrategias."
          None (Some 1) None ]
  | propuestas_accion =>
      [ mkItem 1 "/placeholder.svg?height=400&width=600"
          "Proyecto de salud"
          "Inauguración de nueva clínica comunitaria para mejorar servicios de salud."
          None (Some 0) None;
        mkItem 2 "/placeholder.svg?height=400&width=600"
          "Programa educativo"
          "Lanzamiento de programa educativo para jóvenes."
          None (Some 1) None ]
  end.

(** [a.order || 0]: a missing order (and the order 0) reads as 0. *)
Definition order_or_0 (item : GalleryItem) : Z :=
  match order item with
  | Some o => o
  | None => 0
  end.

(** The comparator of [getGalleryItems], line 108. *)
Definition compare_order (a b : GalleryItem) : Z := order_or_0 a - order_or_0 b.

(** [a] may stay before [b]: the comparator is not positive. *)
Definition by_order (a b : GalleryItem) : Prop := compare_order a b <= 0.

#[global] Instance by_order_dec a b : Decision (by_order a b).
Proof. unfold by_order. apply Z.le_dec. Defined.

(** [items.sort(comparator)].  [Array.prototype.sort] is stable: items
    that compare equal keep their relative position.  Insertion from the
    right, each item going before the first item it may stay before. *)
Fixpoint insert_by_order (x : GalleryItem) (sorted : list GalleryItem)
  : list GalleryItem :=
  match sorted with
  | [] => [x]
  | y :: rest =>
      if decide (by_order x y) then x :: y :: rest
      else y :: insert_by_order x rest
  end.

Fixpoint sort_by_order (items : list GalleryItem) : list GalleryItem :=
  match items with
  | [] => []
  | x :: rest => insert_by_order x (sort_by_order rest)
  end.

(** Lines 98-115. *)
Definition getGalleryItems (galleryType : GalleryType) : Js World (list GalleryItem) :=
  has_window ← gets window_defined;
  if negb has_window then ret (INITIAL_GALLERIES galleryType)
  else
    found ← try_catch
      (storedItems ← localStorage_getItem (storage_key galleryType);
       match storedItems with
       | Some text =>
           if truthy text then
             items ← JSON_parse text;
             ret (Some (sort_by_order items))
           else ret None
       | None => ret None
       end)
      (fun error => console_error (ErrorLoading galleryType error);; ret None);
    match found with
    | Some items => ret items
    | None => ret (INITIAL_GALLERIES galleryType)
    end.

(** Lines 125-128: [items.map((item, index) => ({ ...item, order:
    item.order !== undefined ? item.order : index }))]. *)
Definition itemsWithOrder (items : list GalleryItem) : list GalleryItem :=
  imap (fun index item =>
          set_order (match order item with
                     | Some o => o
                     | None => Z.of_nat index
                     end) item) items.

(** Lines 118-136. *)
Definition saveGalleryItems (galleryType : GalleryType) (items : list GalleryItem)
  : Js World unit :=
  has_window ← gets window_defined;
  if negb has_window then ret tt
  else
    try_catch
      (localStorage_setItem (storage_key galleryType)
                            (JSON_stringify (itemsWithOrder items));;
       dispatchEvent (mkEvent galleryType (itemsWithOrder items)))
      (fun error => console_error (ErrorSaving galleryType error)).

(** Lines 139-151. *)
Definition updateGalleryItem (galleryType : GalleryType) (updatedItem : GalleryItem)
  : Js World unit :=
  has_window ← gets window_defined;
  if negb has_window then ret tt
  else
    try_catch
      (items ← getGalleryItems galleryType;
       let updatedItems :=
         (fun item => if bool_decide (id item = id updatedItem)
                      then updatedItem else item) <$> items in
       saveGalleryItems galleryType updatedItems)
      (fun error => console_error (ErrorUpdating galleryType error)).

(** The callback of the [map] in [reorderGalleryItems], lines 161-167. *)
Definition reorder_step (galleryType : GalleryType) (items : list GalleryItem)
    (item_id : Z) (index : nat) : Js World GalleryItem :=
  match List.find (fun i => bool_decide (id i = item_id)) items with
  | Some item => ret (set_order (Z.of_nat index) item)
  | None => throw (ItemNotFound item_id galleryType)
  end.

(** Lines 154-173. *)
Definition reorderGalleryItems (galleryType : GalleryType) (itemIds : list Z)
  : Js World unit :=
  has_window ← gets window_defined;
  if negb has_window then ret tt
  else
    try_catch
      (items ← getGalleryItems galleryType;
       reorderedItems ← map_indexed (reorder_step galleryType items) 0%nat itemIds;
       saveGalleryItems galleryType reorderedItems)
      (fun error => console_error (ErrorReordering galleryType error)).

(** [Object.keys(INITIAL_GALLERIES)], in the order of the literal. *)
Definition gallery_types : list GalleryType :=
  [hero; eventos; actividades; propuestas_accion].

(** The callback of the [forEach] in [initializeGalleryStore], lines
    201-206.  [!localStorage.getItem(key)] holds for a missing entry and
    for the empty text.  There is no [try] around the write. *)
Definition initialize_step (galleryType : GalleryType) : Js World unit :=
  let key := storage_key galleryType in
  stored ← localStorage_getItem key;
  if negb (match stored with
           | Some text => truthy text
           | None => false
           end)
  then localStorage_setItem key (JSON_stringify (INITIAL_GALLERIES galleryType))
  else ret tt.

(** Lines 195-207. *)
Definition initializeGalleryStore : Js World unit :=
  has_window ← gets window_defined;
  if negb has_window then ret tt
  else for_each initialize_step gallery_types.

End Store.

(** ** The gallery manager ([gallery-manager.tsx]) *)

Module Manager.

(** [Omit<GalleryItem, "id">], the form's working copy. *)
Record NewItem := mkNewItem {
  new_imageUrl : string;
  new_title : string;
  new_description : string;
  new_alt : option string;
  new_order : option Z;
  new_featured : option bool
}.

(** The callbacks handed to [setTimeout(..., 3000)]. *)
Inductive TimeoutAction := ClearUploadSuccess | ClearUploadError.

(** The [useState] cells of the component, lines 27-37, and the timers
    it has started (oldest first). *)
Record ManagerState := mkManager {
  galleryItems : list GalleryItem;
  newItem : NewItem;
  uploadSuccess : bool;
  uploadError : string;
  isProcessing : bool;
  editingItem : option GalleryItem;
  isEditDialogOpen : bool;
  timeouts : list (TimeoutAction * Z)
}.

Record Page := mkPage {
  world : World;
  manager : ManagerState
}.

Definition in_world {A} (m : Js World A) : Js Page A :=
  fun p => match m (world p) with
           | (r, w') => (r, mkPage w' (manager p))
           end.

Definition in_manager (f : ManagerState -> ManagerState) : Js Page unit :=
  modify (fun p => mkPage (world p) (f (manager p))).

(** The state with one cell replaced, and the [set...] functions of
    [useState] that do it. *)
Definition with_galleryItems (items : list GalleryItem) (m : ManagerState)
  : ManagerState :=
  mkManager items (newItem m) (uploadSuccess m) (uploadError m)
            (isProcessing m) (editingItem m) (isEditDialogOpen m) (timeouts m).

Definition with_newItem (n : NewItem) (m : ManagerState) : ManagerState :=
  mkManager (galleryItems m) n (uploadSuccess m) (uploadError m)
            (isProcessing m) (editingItem m) (isEditDialogOpen m) (timeouts m).

Definition with_uploadSuccess (b : bool) (m : ManagerState) : ManagerState :=
  mkManager (galleryItems m) (newItem m) b (uploadError m)
            (isProcessing m) (editingItem m) (isEditDialogOpen m) (timeouts m).

Definition with_uploadError (message : string) (m : ManagerState) : ManagerState :=
  mkManager (galleryItems m) (newItem m) (uploadSuccess m) message
            (isProcessing m) (editingItem m) (isEditDialogOpen m) (timeouts m).

Definition with_isProcessing (b : bool) (m : ManagerState) : ManagerState :=
  mkManager (galleryItems m) (newItem m) (uploadSuccess m) (uploadError m)
            b (editingItem m) (isEditDialogOpen m) (timeouts m).

Definition with_timeout (action : TimeoutAction) (delay : Z) (m : ManagerState)
  : ManagerState :=
  mkManager (galleryItems m) (newItem m) (uploadSuccess m) (uploadError m)
            (isProcessing m) (editingItem m) (isEditDialogOpen m)
            (timeouts m ++ [(action, delay)]).

Definition setGalleryItems (items : list GalleryItem) : Js Page unit :=
  in_manager (with_galleryItems items).

Definition setNewItem (n : NewItem) : Js Page unit :=
  in_manager (with_newItem n).

Definition setUploadSuccess (b : bool) : Js Page unit :=
  in_manager (with_uploadSuccess b).

Definition setUploadError (message : string) : Js Page unit :=
  in_manager (with_uploadError message).

Definition setIsProcessing (b : bool) : Js Page unit :=
  in_manager (with_isProcessing b).

Definition setTimeout (action : TimeoutAction) (delay : Z) : Js Page unit :=
  in_manager (with_timeout action delay).

(** A string in a condition: the empty string is falsy. *)
Definition nonempty (s : string) : bool :=
  match s with
  | EmptyString => false
  | _ => true
  end.

(** The form after a reset, lines 82-86. *)
Definition blank_form : NewItem :=
  mkNewItem "/placeholder.svg?height=400&width=600" EmptyString EmptyString None None None.

(** The state at the first render, lines 27-37. *)
Definition initial_state (initialItems : list GalleryItem) : ManagerState :=
  mkManager initialItems blank_form false EmptyString false None false [].

(** [array[index]] for a JavaScript number used as an index. *)
Definition at_index (items : list GalleryItem) (index : Z) : option GalleryItem :=
  if index <? 0 then None else items !! Z.to_nat index.

(** [!item.featured]: a missing flag is falsy. *)
Definition is_featured (item : GalleryItem) : bool :=
  match featured item with
  | Some b => b
  | None => false
  end.

Section Handlers.

(** The component's [onUpdateGallery] prop. *)
Variable onUpdateGallery : list GalleryItem -> Js World unit.

(** The state cells as the handler's closure captured them at the
    last render. *)
Variable rendered : ManagerState.

(** Lines 45-102. *)
Definition handleAddGalleryItem : Js Page unit :=
  if nonempty (new_title (newItem rendered))
     && nonempty (new_description (newItem rendered))
  then
    try_finally
      (try_catch
         (setIsProcessing true;;
          now ← in_world (gets clock);
          let newGalleryItem :=
            mkItem now
                   (new_imageUrl (newItem rendered))
                   (new_title (newItem rendered))
                   (new_description (newItem rendered))
                   (new_alt (newItem rendered))
                   (Some (Z.of_nat (length (galleryItems rendered))))
                   (new_featured (newItem rendered)) in
          newGalleryItem ←
            (if String.prefix "blob:" (new_imageUrl (newItem rendered)) then
               try_catch
                 (converted ← in_world (gets (fun w =>
                      blob_to_data_url w (new_imageUrl (newItem rendered))));
                  match converted with
                  | inr base64 => ret (set_imageUrl base64 newGalleryItem)
                  | inl error => throw error
                  end)
                 (fun error =>
                    in_world (console_error (ErrorBlobToBase64 error));;
                    ret newGalleryItem)
             else ret newGalleryItem) : Js Page GalleryItem;
          let updatedItems := galleryItems rendered ++ [newGalleryItem] in
          setGalleryItems updatedItems;;
          in_world (onUpdateGallery updatedItems);;
          setNewItem blank_form;;
          setUploadSuccess true;;
          setTimeout ClearUploadSuccess 3000)
         (fun error =>
            in_world (console_error (ErrorAddImage error));;
            setUploadError "Error al procesar la imagen. Intente nuevamente.";;
            setTimeout ClearUploadError 3000))
      (setIsProcessing false)
  else
    setUploadError "Por favor complete todos los campos";;
    setTimeout ClearUploadError 3000.

(** Lines 105-116. *)
Definition handleDeleteItem (item_id : Z) : Js Page unit :=
  let updatedItems :=
    filter (fun item => id item ≠ item_id) (galleryItems rendered) in
  let reorderedItems :=
    imap (fun index item => set_order (Z.of_nat index) item) updatedItems in
  setGalleryItems reorderedItems;;
  in_world (onUpdateGallery reorderedItems).

(** Lines 159-163. *)
Definition handleSaveEditedItem (updatedItem : GalleryItem) : Js Page unit :=
  let updatedItems :=
    (fun item => if bool_decide (id item = id updatedItem)
                 then updatedItem else item) <$> galleryItems rendered in
  setGalleryItems updatedItems;;
  in_world (onUpdateGallery updatedItems).

(** Lines 166-178.  Past the end of the array the JavaScript spreads
    [undefined] and stores objects that lack the fields of an item. *)
Definition handleMoveUp (index : Z) : Js Page unit :=
  if index <=? 0 then ret tt
  else
    match at_index (galleryItems rendered) index,
          at_index (galleryItems rendered) (index - 1) with
    | Some here, Some above =>
        let itemToMove := set_order (index - 1) here in
        let itemToReplace := set_order index above in
        let newItems :=
          <[Z.to_nat (index - 1) := itemToMove]>
            (<[Z.to_nat index := itemToReplace]> (galleryItems rendered)) in
        setGalleryItems newItems;;
        in_world (onUpdateGallery newItems)
    | _, _ => untyped
    end.

(** Lines 181-193.  A negative index, like one past the end, reads
    [undefined]. *)
Definition handleMoveDown (index : Z) : Js Page unit :=
  if index >=? Z.of_nat (length (galleryItems rendered)) - 1 then ret tt
  else
    match at_index (galleryItems rendered) index,
          at_index (galleryItems rendered) (index + 1) with
    | Some here, Some below =>
        let itemToMove := set_order (index + 1) here in
        let itemToReplace := set_order index below in
        let newItems :=
          <[Z.to_nat (index + 1) := itemToMove]>
            (<[Z.to_nat index := itemToReplace]> (galleryItems rendered)) in
        setGalleryItems newItems;;
        in_world (onUpdateGallery newItems)
    | _, _ => untyped
    end.

(** Lines 196-201. *)
Definition handleToggleFeatured (item : GalleryItem) : Js Page unit :=
  let updatedItem := set_featured (negb (is_featured item)) item in
  let updatedItems :=
    (fun i => if bool_decide (id i = id item) then updatedItem else i)
      <$> galleryItems rendered in
  setGalleryItems updatedItems;;
  in_world (onUpdateGallery updatedItems).

End Handlers.

Definition with_editingItem (item : option GalleryItem) (m : ManagerState)
  : ManagerState :=
  mkManager (galleryItems m) (newItem m) (uploadSuccess m) (uploadError m)
            (isProcessing m) item (isEditDialogOpen m) (timeouts m).

Definition with_isEditDialogOpen (b : bool) (m : ManagerState) : ManagerState :=
  mkManager (galleryItems m) (newItem m) (uploadSuccess m) (uploadError m)
            (isProcessing m) (editingItem m) b (timeouts m).

Definition setEditingItem (item : option GalleryItem) : Js Page unit :=
  in_manager (with_editingItem item).

Definition setIsEditDialogOpen (b : bool) : Js Page unit :=
  in_manager (with_isEditDialogOpen b).

(** Lines 153-156. *)
Definition handleEditItem (item : GalleryItem) : Js Page unit :=
  setEditingItem (Some item);;
  setIsEditDialogOpen true.

(** [{ ...newItem, imageUrl: imageUrl }] *)
Definition form_with_imageUrl (u : string) (n : NewItem) : NewItem :=
  mkNewItem u (new_title n) (new_description n) (new_alt n) (new_order n)
            (new_featured n).

Section Upload.

(** What the browser hands over for a chosen file, and what
    [optimizeImage] gives back. *)
Variables File Blob : Type.

(** [optimizeImage] of [@/lib/image-utils] and [URL.createObjectURL],
    both outside these sources. *)
Variable optimizeImage : File -> Z -> Js World Blob.
Variable createObjectURL : Blob -> Js World string.

(** [console.error("Error al procesar la imagen:", error)] *)
Variable report_processing_error : Exn -> Js World unit.

Variable rendered : ManagerState.

(** Lines 119-150.  The argument is [e.target.files[0]] when there is
    one. *)
Definition handleImageUpload (chosen : option File) : Js Page unit :=
  match chosen with
  | None => ret tt
  | Some file =>
      try_finally
        (try_catch
           (setIsProcessing true;;
            setUploadSuccess false;;
            setUploadError "Procesando imagen...";;
            optimizedBlob ← in_world (optimizeImage file 1200);
            imageUrl ← in_world (createObjectURL optimizedBlob);
            setNewItem (form_with_imageUrl imageUrl (newItem rendered));;
            setUploadError EmptyString)
           (fun error =>
              in_world (report_processing_error error);;
              setUploadError "Error al procesar la imagen. Intente nuevamente.";;
              setTimeout ClearUploadError 3000))
        (setIsProcessing false)
  end.

End Upload.

(** An event handler runs with the state of the last render. *)
Definition run_handler (handler : ManagerState -> Js Page unit) (p : Page)
  : Outcome unit * Page :=
  handler (manager p) p.

End Manager.

(** ** The item editor dialog ([edit-gallery-item.tsx]) *)

Module Dialog.

(** The [useState] cells of the dialog, lines 31-33, and the timers it
    has started. *)
Record DialogState := mkDialog {
  editedItem : GalleryItem;
  isProcessing : bool;
  uploadError : string;
  timeouts : list (Manager.TimeoutAction * Z)
}.

(** The dialog on its page: the world, the dialog's own cells, and the
    state of whoever mounted it, which the dialog reaches only through
    its [onSave] and [onOpenChange] props. *)
Record Mounted (Parent : Type) := mkMounted {
  world : World;
  dialog : DialogState;
  parent : Parent
}.
Arguments mkMounted {Parent} world dialog parent.
Arguments world {Parent} m.
Arguments dialog {Parent} m.
Arguments parent {Parent} m.

(** The state at mount: [useState({ ...item })]. *)
Definition initial_state (item : GalleryItem) : DialogState :=
  mkDialog item false EmptyString [].

(** [{ ...editedItem, title: t }] and [{ ...editedItem, description: d }],
    lines 89 and 99. *)
Definition set_title (t : string) (item : GalleryItem) : GalleryItem :=
  mkItem (id item) (imageUrl item) t (description item)
         (alt item) (order item) (featured item).

Definition set_description (d : string) (item : GalleryItem) : GalleryItem :=
  mkItem (id item) (imageUrl item) (title item) d
         (alt item) (order item) (featured item).

Section Handlers.

Variable Parent : Type.
Variables File Blob : Type.

(** [file.name] and [file.type], and [new File([blob], name, { type })]. *)
Variable file_name : File -> string.
Variable file_type : File -> string.
Variable new_File : Blob -> string -> string -> File.

(** [optimizeImage] and [fileToDataUrl] of [@/lib/image-utils]. *)
Variable optimizeImage : File -> Z -> Js World Blob.
Variable fileToDataUrl : File -> Js World string.

(** [console.error("Error al procesar la imagen:", error)] *)
Variable report_processing_error : Exn -> Js World unit.

(** The props [onSave] and [onOpenChange]. *)
Variable onSave : GalleryItem -> Js (World * Parent) unit.
Variable onOpenChange : bool -> Js (World * Parent) unit.

(** The dialog's cells as the handler's closure captured them. *)
Variable rendered : DialogState.

Definition in_world {A} (m : Js World A) : Js (Mounted Parent) A :=
  fun s => match m (world s) with
           | (r, w') => (r, mkMounted w' (dialog s) (parent s))
           end.

Definition in_parent {A} (m : Js (World * Parent) A) : Js (Mounted Parent) A :=
  fun s => match m (world s, parent s) with
           | (r, (w', parent')) => (r, mkMounted w' (dialog s) parent')
           end.

Definition in_dialog (f : DialogState -> DialogState) : Js (Mounted Parent) unit :=
  modify (fun s => mkMounted (world s) (f (dialog s)) (parent s)).

Definition setEditedItem (item : GalleryItem) : Js (Mounted Parent) unit :=
  in_dialog (fun d => mkDialog item (isProcessing d) (uploadError d) (timeouts d)).

Definition setIsProcessing (b : bool) : Js (Mounted Parent) unit :=
  in_dialog (fun d => mkDialog (editedItem d) b (uploadError d) (timeouts d)).

Definition setUploadError (message : string) : Js (Mounted Parent) unit :=
  in_dialog (fun d => mkDialog (editedItem d) (isProcessing d) message (timeouts d)).

Definition setTimeout (action : Manager.TimeoutAction) (delay : Z)
  : Js (Mounted Parent) unit :=
  in_dialog (fun d => mkDialog (editedItem d) (isProcessing d) (uploadError d)
                        (timeouts d ++ [(action, delay)])).

(** Lines 36-66. *)
Definition handleImageUpload (chosen : option File) : Js (Mounted Parent) unit :=
  match chosen with
  | None => ret tt
  | Some file =>
      try_finally
        (try_catch
           (setIsProcessing true;;
            setUploadError "Procesando imagen...";;
            optimizedBlob ← in_world (optimizeImage file 1200);
            base64 ← in_world (fileToDataUrl
                        (new_File optimizedBlob (file_name file) (file_type file)));
            setEditedItem (set_imageUrl base64 (editedItem rendered));;
            setUploadError EmptyString)
           (fun error =>
              in_world (report_processing_error error);;
              setUploadError "Error al procesar la imagen. Intente nuevamente.";;
              setTimeout Manager.ClearUploadError 3000))
        (setIsProcessing false)
  end.

(** The [onChange] handlers of the title, the description and the
    featured checkbox, lines 89, 99 and 148. *)
Definition handleTitleChange (value : string) : Js (Mounted Parent) unit :=
  setEditedItem (set_title value (editedItem rendered)).

Definition handleDescriptionChange (value : string) : Js (Mounted Parent) unit :=
  setEditedItem (set_description value (editedItem rendered)).

Definition handleFeaturedChange (checked : bool) : Js (Mounted Parent) unit :=
  setEditedItem (set_featured checked (editedItem rendered)).

(** Lines 69-72. *)
Definition handleSave : Js (Mounted Parent) unit :=
  in_parent (onSave (editedItem rendered));;
  in_parent (onOpenChange false).

(** The Cancel button, line 161. *)
Definition handleCancel : Js (Mounted Parent) unit :=
  in_parent (onOpenChange false).

End Handlers.

End Dialog.

(** ** The specification's vocabulary *)

(** The order the specification speaks of: ascending by [order], a
    missing order counting as 0. *)
Definition ascending (a b : GalleryItem) : Prop :=
  default 0 (order a) <= default 0 (order b).

(** The persisted entry of a gallery, when there is a browser to hold
    one. *)
Definition persisted_entry (galleryType : GalleryType) (w : World)
  : option StoredText :=
  if window_defined w then localStorage w !! storage_key galleryType else None.

(** Order normalisation in the specification's words: an item lacking
    an order gets its list index, the others are left as they are. *)
Definition spec_normalize_order (items : list GalleryItem) : list GalleryItem :=
  imap (fun index item =>
          match order item with
          | Some _ => item
          | None => set_order (Z.of_nat index) item
          end) items.

(** A browser with the given storage content that accepts every write
    and in which every blob conversion fails. *)
Definition browser (storage : gmap string StoredText) (now : Z) : World :=
  mkWorld true storage (fun _ _ => true) [] [] now (fun url => inl (FetchError url)).

(** [{ ...item, order: o }] for an order that may be missing. *)
Definition put_order (o : option Z) (item : GalleryItem) : GalleryItem :=
  mkItem (id item) (imageUrl item) (title item) (description item)
         (alt item) o (featured item).

(** A move in the specification's words: the items at positions [i] and
    [i + 1] trade places and trade their order values, so that each
    position keeps the order value it had. *)
Definition spec_swap (i : nat) (items : list GalleryItem) : list GalleryItem :=
  match items !! i, items !! S i with
  | Some upper, Some lower =>
      <[i := put_order (order upper) lower]>
        (<[S i := put_order (order lower) upper]> items)
  | _, _ => items
  end.

(** The outcome of a handler that puts [items] in the component state
    and hands them to [onUpdateGallery]. *)
Definition committed (onUpdateGallery : list GalleryItem -> Js World unit)
    (items : list GalleryItem) (p : Manager.Page) : Outcome unit * Manager.Page :=
  match onUpdateGallery items (Manager.world p) with
  | (r, w') =>
      (r, Manager.mkPage w' (Manager.with_galleryItems items (Manager.manager p)))
  end.

(** Every item's order is its position in the list. *)
Definition aligned (items : list GalleryItem) : Prop :=
  forall (k : nat) item, items !! k = Some item -> order item = Some (Z.of_nat k).

(** [!localStorage.getItem(key)]: no entry, or the empty text. *)
Definition entry_missing (galleryType : GalleryType) (w : World) : Prop :=
  match localStorage w !! storage_key galleryType with
  | Some text => truthy text = false
  | None => True
  end.

(** The manager as the dialog's parent: [onSave] is
    [handleSaveEditedItem] and [onOpenChange] is [setIsEditDialogOpen],
    lines 402-407 of [gallery-manager.tsx]; both run on the manager's
    page. *)
Definition on_page (handler : Manager.ManagerState -> Js Manager.Page unit)
  : Js (World * Manager.ManagerState) unit :=
  fun s => match handler (snd s) (Manager.mkPage (fst s) (snd s)) with
           | (r, p') => (r, (Manager.world p', Manager.manager p'))
           end.

(** The dialog's Save button when the manager has mounted the dialog:
    [onSave={handleSaveEditedItem}] and
    [onOpenChange={setIsEditDialogOpen}], run with the dialog's current
    cells. *)
Definition save_in_manager (onUpdateGallery : list GalleryItem -> Js World unit)
    (s : Dialog.Mounted Manager.ManagerState)
  : Outcome unit * Dialog.Mounted Manager.ManagerState :=
  Dialog.handleSave Manager.ManagerState
    (fun updatedItem => on_page (fun rendered =>
       Manager.handleSaveEditedItem onUpdateGallery rendered updatedItem))
    (fun open => on_page (fun _ => Manager.setIsEditDialogOpen open))
    (Dialog.dialog s) s.


(** The list a handler leaves in the component state. *)
Definition items_after (handler : Manager.ManagerState -> Js Manager.Page unit)
    (p : Manager.Page) : list GalleryItem :=
  Manager.galleryItems (Manager.manager (snd (Manager.run_handler handler p))).

(** * Properties *)

(** Unfolds the monad's plumbing so that a run becomes a cascade of
    matches on the state. *)
Ltac js_unfold :=
  unfold mbind, mret, Js_bind, Js_ret, bind, ret, throw, untyped,
    try_catch, try_finally, gets, modify,
    console_error, dispatchEvent, localStorage_getItem, localStorage_setItem,
    JSON_parse, JSON_stringify in *.

Section SortFacts.
Import Store.

Lemma by_order_ascending a b : by_order a b <-> ascending a b.
Proof.
  unfold by_order, compare_order, order_or_0, ascending.
  destruct (order a), (order b); simpl; lia.
Qed.

Lemma insert_by_order_perm x l : insert_by_order x l ≡ₚ x :: l.
Proof.
  induction l as [|y l IH]; simpl; [done|].
  case_decide; [done|].
  rewrite IH. apply Permutation_swap.
Qed.

Lemma sort_by_order_perm l : sort_by_order l ≡ₚ l.
Proof.
  induction l as [|x l IH]; simpl; [done|].
  by rewrite insert_by_order_perm, IH.
Qed.

Lemma insert_by_order_sorted x l :
  StronglySorted ascending l -> StronglySorted ascending (insert_by_order x l).
Proof.
  induction 1 as [|y l Hl IH Hy]; simpl.
  - repeat constructor.
  - case_decide as Hxy.
    + apply by_order_ascending in Hxy.
      constructor; [by constructor|].
      constructor; [done|].
      eapply Forall_impl; [exact Hy|].
      unfold ascending in *. intros z Hz. lia.
    + assert (ascending y x) as Hyx.
      { unfold ascending. rewrite by_order_ascending in Hxy.
        unfold ascending in Hxy. lia. }
      constructor; [done|].
      rewrite insert_by_order_perm. by constructor.
Qed.

Lemma sort_by_order_sorted l : StronglySorted ascending (sort_by_order l).
Proof.
  induction l as [|x l IH]; simpl; [constructor|].
  by apply insert_by_order_sorted.
Qed.

(** Stability: a list that is already in order is returned as it is. *)
Lemma sort_by_order_id l : StronglySorted ascending l -> sort_by_order l = l.
Proof.
  induction 1 as [|x l Hl IH Hx]; simpl; [done|].
  rewrite IH. destruct Hx as [|y l Hxy _]; simpl; [done|].
  rewrite decide_True; [done|]. by apply by_order_ascending.
Qed.
End SortFacts.

Section StoreRuns.
Import Store.

(** What one call of [getGalleryItems] does, case by case. *)
Lemma getGalleryItems_run g w :
  getGalleryItems g w =
    if window_defined w then
      match localStorage w !! storage_key g with
      | Some (JsonText items) => (Returned (sort_by_order items), w)
      | Some (OtherText raw) =>
          if truthy (OtherText raw)
          then (Returned (INITIAL_GALLERIES g),
                log_error (ErrorLoading g (SyntaxError raw)) w)
          else (Returned (INITIAL_GALLERIES g), w)
      | None => (Returned (INITIAL_GALLERIES g), w)
      end
    else (Returned (INITIAL_GALLERIES g), w).
Proof.
  unfold getGalleryItems. js_unfold.
  destruct (window_defined w); simpl; [|done].
  destruct (localStorage w !! storage_key g) as [[items|raw]|]; simpl; try done.
  by destruct raw.
Qed.

(** Reading never throws and leaves the store and the events alone. *)
Lemma getGalleryItems_returns g w :
  exists items w',
    getGalleryItems g w = (Returned items, w') /\
    window_defined w' = window_defined w /\
    localStorage w' = localStorage w /\
    storage_accepts w' = storage_accepts w /\
    dispatched w' = dispatched w.
Proof.
  rewrite getGalleryItems_run.
  destruct (window_defined w) eqn:Hw; [|by eauto 10].
  destruct (localStorage w !! storage_key g) as [[items|raw]|]; [by eauto 10| |by eauto 10].
  destruct (truthy (OtherText raw)); eexists _, _; (split; [done|]); simpl; auto.
Qed.

(** What one call of [saveGalleryItems] does, case by case. *)
Lemma saveGalleryItems_run g items w :
  saveGalleryItems g items w =
    if window_defined w then
      if storage_accepts w (storage_key g) (JsonText (itemsWithOrder items))
      then (Returned tt,
            log_event (mkEvent g (itemsWithOrder items))
              (set_localStorage
                 (<[storage_key g := JsonText (itemsWithOrder items)]> (localStorage w)) w))
      else (Returned tt, log_error (ErrorSaving g (QuotaExceededError (storage_key g))) w)
    else (Returned tt, w).
Proof.
  unfold saveGalleryItems. js_unfold.
  destruct (window_defined w); simpl; [|done].
  by destruct (storage_accepts w _ _).
Qed.

(** The index-th item of [itemsWithOrder]: the order is kept when there
    is one and is the index otherwise; nothing else changes. *)
Lemma itemsWithOrder_lookup items (k : nat) :
  itemsWithOrder items !! k =
    (fun item => set_order (default (Z.of_nat k) (order item)) item) <$> items !! k.
Proof.
  unfold itemsWithOrder. rewrite list_lookup_imap.
  destruct (items !! k) as [item|]; simpl; [|done].
  by destruct (order item).
Qed.

Lemma length_itemsWithOrder items : length (itemsWithOrder items) = length items.
Proof. apply length_imap. Qed.

Lemma set_order_same item o : order item = Some o -> set_order o item = item.
Proof. destruct item; simpl; by intros ->. Qed.

Lemma itemsWithOrder_id items :
  Forall (fun item => is_Some (order item)) items -> itemsWithOrder items = items.
Proof.
  intros Hall. apply list_eq. intros k. rewrite itemsWithOrder_lookup.
  destruct (items !! k) as [item|] eqn:Hk; simpl; [|done].
  f_equal. eapply Forall_lookup_1 in Hall as [o Ho]; [|done].
  rewrite Ho. simpl. by apply set_order_same.
Qed.

End StoreRuns.

Section StoreClaims.
Import Store.

Lemma itemsWithOrder_spec items : itemsWithOrder items = spec_normalize_order items.
Proof.
  unfold itemsWithOrder, spec_normalize_order. apply imap_ext.
  intros k item _. simpl. destruct (order item) as [o|] eqn:Ho; [|done].
  by apply set_order_same.
Qed.

(** C5. [getGalleryItems] always returns a list: the seed data when the
    gallery has no persisted entry, the parsed list in ascending order
    (a missing order counting as 0) when the entry holds a list, and the
    seed data again when the entry cannot be read as a list. *)
Theorem getGalleryItems_seed_or_sorted (g : GalleryType) (w : World) :
  exists items,
    fst (getGalleryItems g w) = Returned items /\
    match persisted_entry g w with
    | None => items = INITIAL_GALLERIES g
    | Some (JsonText parsed) => items ≡ₚ parsed /\ StronglySorted ascending items
    | Some (OtherText raw) => items = INITIAL_GALLERIES g
    end.
Proof.
  rewrite getGalleryItems_run. unfold persisted_entry.
  destruct (window_defined w); [|by eexists].
  destruct (localStorage w !! storage_key g) as [[parsed|raw]|].
  - eexists; split; [done|]. split.
    + apply sort_by_order_perm.
    + apply sort_by_order_sorted.
  - destruct (truthy (OtherText raw)); by eexists.
  - by eexists.
Qed.

(** C1, as stated, fails: an item that comes with order 5 is persisted
    at position 0 with order 5. *)
Lemma saveGalleryItems_order_not_position :
  exists stored item,
    localStorage
      (snd (saveGalleryItems hero
              [mkItem 1 "/a.png" "A" "d" None (Some 5) None] (browser ∅ 0)))
      !! storage_key hero = Some (JsonText stored) /\
    stored !! 0%nat = Some item /\
    order item = Some 5 /\
    order item <> Some (Z.of_nat 0).
Proof.
  rewrite saveGalleryItems_run. simpl.
  eexists _, _. split; [apply lookup_insert_eq|].
  simpl. split; [done|]. split; [done|]. discriminate.
Qed.

(** C1, amended. After a persisted write every item of the persisted
    list has a defined order: the order the item came with, or its
    position in the list when it came without one; nothing else of the
    item changes and the list keeps its length. *)
Theorem saveGalleryItems_defined_order (g : GalleryType) (items : list GalleryItem)
    (w : World) :
  window_defined w = true ->
  storage_accepts w (storage_key g) (JsonText (itemsWithOrder items)) = true ->
  exists stored,
    localStorage (snd (saveGalleryItems g items w)) !! storage_key g
      = Some (JsonText stored) /\
    length stored = length items /\
    Forall (fun item => is_Some (order item)) stored /\
    forall (k : nat) item,
      items !! k = Some item ->
      stored !! k = Some (set_order (default (Z.of_nat k) (order item)) item).
Proof.
  intros Hwin Hacc. rewrite saveGalleryItems_run, Hwin, Hacc. simpl.
  exists (itemsWithOrder items). split; [apply lookup_insert_eq|].
  split; [apply length_itemsWithOrder|]. split.
  - apply Forall_lookup_2. intros k item. rewrite itemsWithOrder_lookup.
    destruct (items !! k); simpl; [|done]. intros [= <-]. by eexists.
  - intros k item Hk. by rewrite itemsWithOrder_lookup, Hk.
Qed.

Lemma saveGalleryItems_defined_order_witness :
  exists stored,
    localStorage
      (snd (saveGalleryItems eventos
              [mkItem 7 "/a.png" "A" "d" None None None;
               mkItem 8 "/b.png" "B" "d" None (Some 5) None] (browser ∅ 0)))
      !! storage_key eventos = Some (JsonText stored) /\
    length stored = 2%nat.
Proof.
  destruct (saveGalleryItems_defined_order eventos
              [mkItem 7 "/a.png" "A" "d" None None None;
               mkItem 8 "/b.png" "B" "d" None (Some 5) None] (browser ∅ 0))
    as (stored & Hstored & Hlen & _); [reflexivity|reflexivity|].
  exists stored. split; [exact Hstored|exact Hlen].
Defined.

(** C4. When the write is persisted, [saveGalleryItems] followed by
    [getGalleryItems] returns the saved list up to order normalisation
    (an item lacking an order gets its list index) and ascending sort by
    order; a list that is already normalised and in order comes back as
    it is. *)
Theorem save_then_get_roundtrip (g : GalleryType) (x : list GalleryItem) (w : World) :
  window_defined w = true ->
  storage_accepts w (storage_key g) (JsonText (itemsWithOrder x)) = true ->
  exists items,
    fst (getGalleryItems g (snd (saveGalleryItems g x w))) = Returned items /\
    items ≡ₚ spec_normalize_order x /\
    StronglySorted ascending items /\
    (StronglySorted ascending (spec_normalize_order x) ->
     items = spec_normalize_order x).
Proof.
  intros Hwin Hacc. rewrite saveGalleryItems_run, Hwin, Hacc. simpl.
  rewrite getGalleryItems_run. simpl. rewrite Hwin, lookup_insert_eq.
  rewrite itemsWithOrder_spec.
  eexists; split; [done|]. split; [apply sort_by_order_perm|].
  split; [apply sort_by_order_sorted|]. apply sort_by_order_id.
Qed.

Lemma save_then_get_roundtrip_witness :
  exists items,
    fst (getGalleryItems eventos
           (snd (saveGalleryItems eventos
                   [mkItem 7 "/a.png" "A" "d" None (Some 3) None;
                    mkItem 8 "/b.png" "B" "d" None None None] (browser ∅ 0))))
      = Returned items /\
    items ≡ₚ spec_normalize_order
               [mkItem 7 "/a.png" "A" "d" None (Some 3) None;
                mkItem 8 "/b.png" "B" "d" None None None].
Proof.
  destruct (save_then_get_roundtrip eventos
              [mkItem 7 "/a.png" "A" "d" None (Some 3) None;
               mkItem 8 "/b.png" "B" "d" None None None] (browser ∅ 0))
    as (items & Hget & Hperm & _); [reflexivity|reflexivity|].
  exists items. split; [exact Hget|exact Hperm].
Defined.

End StoreClaims.

Section Reorder.
Import Store.

Variable galleryType : GalleryType.
Variable items : list GalleryItem.

Lemma find_unknown item_id :
  item_id ∉ id <$> items ->
  List.find (fun i => bool_decide (id i = item_id)) items = None.
Proof.
  intros Hnot.
  destruct (List.find _ items) as [item|] eqn:Hfind; [|done].
  apply find_some in Hfind as [Hin Hid].
  apply bool_decide_eq_true in Hid. destruct Hnot.
  rewrite <- Hid. apply list_elem_of_fmap_2. by apply list_elem_of_In.
Qed.

Lemma reorder_step_run item_id index w :
  reorder_step galleryType items item_id index w =
    match List.find (fun i => bool_decide (id i = item_id)) items with
    | Some item => (Returned (set_order (Z.of_nat index) item), w)
    | None => (Threw (ItemNotFound item_id galleryType), w)
    end.
Proof. unfold reorder_step. by destruct (List.find _ items). Qed.

Lemma map_indexed_cons {St A B} (f : A -> nat -> Js St B) index x rest s :
  map_indexed f index (x :: rest) s =
    match f x index s with
    | (Returned y, s') =>
        match map_indexed f (S index) rest s' with
        | (Returned ys, s'') => (Returned (y :: ys), s'')
        | (Threw e, s'') => (Threw e, s'')
        | (Untyped, s'') => (Untyped, s'')
        end
    | (Threw e, s') => (Threw e, s')
    | (Untyped, s') => (Untyped, s')
    end.
Proof.
  simpl. js_unfold. by destruct (f x index s) as [[y| |] s'].
Qed.

(** The [map] only reads: whatever its outcome, the world is the same. *)
Lemma reorder_map_world itemIds (index : nat) w :
  snd (map_indexed (reorder_step galleryType items) index itemIds w) = w.
Proof.
  revert index. induction itemIds as [|item_id rest IH]; intros index; [done|].
  rewrite map_indexed_cons, reorder_step_run.
  destruct (List.find _ items); [|done].
  specialize (IH (S index)).
  by destruct (map_indexed _ (S index) rest w) as [[ys| |] w'].
Qed.

(** One unknown identifier anywhere in the list makes the [map] throw. *)
Lemma reorder_map_throws itemIds (index : nat) w missing :
  missing ∈ itemIds ->
  missing ∉ id <$> items ->
  exists unknown,
    fst (map_indexed (reorder_step galleryType items) index itemIds w)
      = Threw (ItemNotFound unknown galleryType).
Proof.
  intros Hin Hnot. revert index.
  induction itemIds as [|item_id rest IH]; intros index; [by apply elem_of_nil in Hin|].
  rewrite map_indexed_cons, reorder_step_run.
  destruct (List.find _ items) as [item|] eqn:Hfind; [|by eexists].
  apply elem_of_cons in Hin as [->|Hin].
  { by rewrite find_unknown in Hfind. }
  destruct (IH Hin (S index)) as [unknown Hthrow].
  destruct (map_indexed _ (S index) rest w) as [[ys| |] w']; simpl in *; try done.
  exists unknown. by inversion Hthrow.
Qed.

End Reorder.

Section StoreAbort.
Import Store.

(** C3. When the identifier list names an identifier that the gallery
    does not hold, [reorderGalleryItems] returns normally and nothing is
    applied: the persisted entries are what they were and no event has
    been dispatched. *)
Theorem reorderGalleryItems_unknown_id (g : GalleryType) (itemIds : list Z)
    (w : World) (items : list GalleryItem) (missing : Z) :
  fst (getGalleryItems g w) = Returned items ->
  missing ∈ itemIds ->
  missing ∉ id <$> items ->
  exists w',
    reorderGalleryItems g itemIds w = (Returned tt, w') /\
    localStorage w' = localStorage w /\
    dispatched w' = dispatched w.
Proof.
  intros Hget Hin Hnot.
  unfold reorderGalleryItems.
  unfold mbind at 1, Js_bind, bind at 1, gets.
  destruct (window_defined w); simpl; [|by eexists].
  destruct (getGalleryItems_returns g w) as (items' & w1 & Hrun & _ & Hstore & _ & Hev).
  rewrite Hrun in Hget. simpl in Hget. injection Hget as ->.
  unfold try_catch, mbind, Js_bind, bind. rewrite Hrun.
  pose proof (reorder_map_world g items itemIds 0 w1) as Hworld.
  destruct (reorder_map_throws g items itemIds 0 w1 missing Hin Hnot)
    as [unknown Hthrow].
  destruct (map_indexed _ 0%nat itemIds w1) as [r w2]. simpl in Hworld, Hthrow.
  subst r w2. eexists. split; [reflexivity|]. simpl. done.
Qed.

Lemma reorderGalleryItems_unknown_id_witness :
  exists w',
    reorderGalleryItems eventos [2; 1; 7] (browser ∅ 0) = (Returned tt, w') /\
    localStorage w' = ∅ /\
    dispatched w' = [].
Proof.
  apply (reorderGalleryItems_unknown_id eventos [2; 1; 7] (browser ∅ 0)
           (INITIAL_GALLERIES eventos) 7).
  - reflexivity.
  - apply list_elem_of_In. simpl. auto.
  - intros Hin. apply list_elem_of_In in Hin. simpl in Hin.
    destruct Hin as [H|[H|[]]]; discriminate H.
Defined.

End StoreAbort.

Section ManagerRuns.
Import Manager.

Variable onUpdateGallery : list GalleryItem -> Js World unit.

Lemma commit_run items p :
  (setGalleryItems items;; in_world (onUpdateGallery items)) p
    = committed onUpdateGallery items p.
Proof.
  unfold committed, setGalleryItems, in_manager, in_world. js_unfold. simpl.
  by destruct (onUpdateGallery items (world p)).
Qed.

Lemma committed_items items p :
  galleryItems (manager (snd (committed onUpdateGallery items p))) = items.
Proof. unfold committed. by destruct (onUpdateGallery items (world p)). Qed.

Lemma at_index_of_nat (items : list GalleryItem) (k : nat) :
  at_index items (Z.of_nat k) = items !! k.
Proof.
  unfold at_index. destruct (Z.ltb_spec (Z.of_nat k) 0); [lia|].
  by rewrite Nat2Z.id.
Qed.

(** Replacing by identifier touches one position when identifiers are
    distinct. *)
Lemma replace_by_id (items : list GalleryItem) (k : nat) item updated :
  NoDup (id <$> items) ->
  items !! k = Some item ->
  (fun i => if bool_decide (id i = id item) then updated else i) <$> items
    = <[k := updated]> items.
Proof.
  intros Hnodup Hk. apply list_eq. intros j.
  rewrite list_lookup_fmap.
  destruct (decide (j = k)) as [->|Hjk].
  - rewrite Hk, list_lookup_insert_eq by (by eapply lookup_lt_Some).
    simpl. by rewrite bool_decide_eq_true_2.
  - rewrite list_lookup_insert_ne by done.
    destruct (items !! j) as [other|] eqn:Hj; simpl; [|done].
    rewrite bool_decide_eq_false_2; [done|].
    intros Hid. apply Hjk.
    eapply NoDup_lookup; [exact Hnodup| |].
    + rewrite list_lookup_fmap, Hj. simpl. by rewrite Hid.
    + by rewrite list_lookup_fmap, Hk.
Qed.

(** Replacing by an identifier that no item has changes nothing. *)
Lemma replace_unknown_id (items : list GalleryItem) (updated : GalleryItem) :
  id updated ∉ id <$> items ->
  (fun i => if bool_decide (id i = id updated) then updated else i) <$> items
    = items.
Proof.
  intros Hnot. induction items as [|item rest IH]; [done|].
  rewrite fmap_cons in Hnot. apply not_elem_of_cons in Hnot as [Hne Hrest].
  rewrite fmap_cons, IH by done.
  by rewrite bool_decide_eq_false_2.
Qed.

End ManagerRuns.

Section MoveClaims.
Import Manager.

Variable onUpdateGallery : list GalleryItem -> Js World unit.

(** C6, amended. [handleMoveUp] at index 0 and [handleMoveDown] at the
    last index change nothing and do not call [onUpdateGallery].  For
    two neighbouring positions [i] and [i + 1] of the list, moving the
    lower item up and moving the upper item down give the same list: the
    two items trade places, each takes its new position as its order
    value, and every other item is unchanged.  This trades the two order
    values when each order value was the item's position. *)
Theorem move_swaps_and_renumbers (p : Page) (i : nat) (upper lower : GalleryItem) :
  let items := galleryItems (manager p) in
  let newItems :=
    <[i := set_order (Z.of_nat i) lower]>
      (<[S i := set_order (Z.of_nat (S i)) upper]> items) in
  run_handler (fun rendered => handleMoveUp onUpdateGallery rendered 0) p
    = (Returned tt, p) /\
  run_handler (fun rendered =>
      handleMoveDown onUpdateGallery rendered (Z.of_nat (length items) - 1)) p
    = (Returned tt, p) /\
  (items !! i = Some upper ->
   items !! S i = Some lower ->
   run_handler (fun rendered =>
       handleMoveUp onUpdateGallery rendered (Z.of_nat (S i))) p
     = committed onUpdateGallery newItems p /\
   run_handler (fun rendered =>
       handleMoveDown onUpdateGallery rendered (Z.of_nat i)) p
     = committed onUpdateGallery newItems p /\
   length newItems = length items /\
   newItems !! i = Some (set_order (Z.of_nat i) lower) /\
   newItems !! S i = Some (set_order (Z.of_nat (S i)) upper) /\
   (forall j : nat, j <> i -> j <> S i -> newItems !! j = items !! j) /\
   (order upper = Some (Z.of_nat i) -> order lower = Some (Z.of_nat (S i)) ->
    newItems = spec_swap i items)).
Proof.
  intros items newItems.
  split; [reflexivity|]. split.
  { unfold run_handler, handleMoveDown. fold items.
    destruct (Z.geb_spec (Z.of_nat (length items) - 1) (Z.of_nat (length items) - 1));
      [reflexivity|lia]. }
  intros Hupper Hlower.
  pose proof (lookup_lt_Some _ _ _ Hupper) as Hi.
  pose proof (lookup_lt_Some _ _ _ Hlower) as HSi.
  split_and!.
  - unfold run_handler, handleMoveUp. fold items.
    destruct (Z.leb_spec (Z.of_nat (S i)) 0); [lia|].
    replace (Z.of_nat (S i) - 1) with (Z.of_nat i) by lia.
    rewrite !at_index_of_nat, Hupper, Hlower, !Nat2Z.id.
    apply commit_run.
  - unfold run_handler, handleMoveDown. fold items.
    destruct (Z.geb_spec (Z.of_nat i) (Z.of_nat (length items) - 1)); [lia|].
    replace (Z.of_nat i + 1) with (Z.of_nat (S i)) by lia.
    rewrite !at_index_of_nat, Hupper, Hlower, !Nat2Z.id.
    rewrite list_insert_insert_ne by lia.
    apply commit_run.
  - unfold newItems. by rewrite !length_insert.
  - unfold newItems. apply list_lookup_insert_eq. by rewrite length_insert.
  - unfold newItems. rewrite list_lookup_insert_ne by lia.
    by apply list_lookup_insert_eq.
  - intros j Hj HSj. unfold newItems.
    by rewrite !list_lookup_insert_ne by done.
  - intros Hou Hol. unfold spec_swap. fold items. rewrite Hupper, Hlower.
    unfold newItems. rewrite Hou, Hol.
    by destruct upper, lower.
Qed.

End MoveClaims.

Section MoveExamples.
Import Manager.

Lemma move_swaps_and_renumbers_witness :
  let a := mkItem 1 "/a.png" "A" "d" None (Some 0) None in
  let b := mkItem 2 "/b.png" "B" "d" None (Some 1) None in
  let p := mkPage (browser ∅ 0) (initial_state [a; b]) in
  run_handler (fun rendered =>
      handleMoveUp (Store.saveGalleryItems hero) rendered 1) p
    = committed (Store.saveGalleryItems hero) [set_order 0 b; set_order 1 a] p /\
  run_handler (fun rendered =>
      handleMoveDown (Store.saveGalleryItems hero) rendered 0) p
    = committed (Store.saveGalleryItems hero) [set_order 0 b; set_order 1 a] p.
Proof.
  intros a b p.
  destruct (move_swaps_and_renumbers (Store.saveGalleryItems hero) p 0 a b)
    as (_ & _ & Hmove).
  destruct (Hmove eq_refl eq_refl) as (Hup & Hdown & _).
  split; [exact Hup|exact Hdown].
Defined.

(** C6, as stated, fails: with order values 5 and 7 the move leaves the
    order values 0 and 1, where trading the order values would leave 5
    and 7. *)
Lemma handleMoveUp_does_not_swap_orders :
  let a := mkItem 1 "/a.png" "A" "d" None (Some 5) None in
  let b := mkItem 2 "/b.png" "B" "d" None (Some 7) None in
  let p := mkPage (browser ∅ 0)
             (initial_state [a; b]) in
  let moved :=
    galleryItems (manager (snd (run_handler
      (fun rendered => handleMoveUp (Store.saveGalleryItems hero) rendered 1) p))) in
  moved = [set_order 0 b; set_order 1 a] /\
  spec_swap 0 [a; b] = [set_order 5 b; set_order 7 a] /\
  moved <> spec_swap 0 [a; b].
Proof. simpl. repeat split. discriminate. Qed.

End MoveExamples.

Section EditClaims.
Import Store Manager.

Variable onUpdateGallery : list GalleryItem -> Js World unit.

Lemma is_featured_set b item : is_featured (set_featured b item) = b.
Proof. done. Qed.

Lemma set_featured_twice b c item :
  set_featured b (set_featured c item) = set_featured b item.
Proof. done. Qed.

Lemma set_featured_same item b : featured item = Some b -> set_featured b item = item.
Proof. destruct item; simpl; by intros ->. Qed.

Lemma toggle_run rendered item p :
  handleToggleFeatured onUpdateGallery rendered item p
    = committed onUpdateGallery
        ((fun i => if bool_decide (id i = id item)
                   then set_featured (negb (is_featured item)) item else i)
           <$> galleryItems rendered) p.
Proof. unfold handleToggleFeatured. apply commit_run. Qed.

(** C7. Toggling an item of the list flips its featured flag, and
    toggling it again brings its featured value back (a flag that was
    missing is then written out as [false]; a flag that was present
    gives back the very item).  The item's order and the items with
    another identifier are untouched by both steps.  When the
    identifiers of the list are distinct this is the whole effect: only
    the item's position changes and every order value stays. *)
Theorem toggle_featured_twice (p : Page) (k : nat) (item : GalleryItem) :
  let items := galleryItems (manager p) in
  let toggled := set_featured (negb (is_featured item)) item in
  let restored := set_featured (is_featured item) item in
  let p1 := snd (run_handler (fun rendered =>
                   handleToggleFeatured onUpdateGallery rendered item) p) in
  let p2 := snd (run_handler (fun rendered =>
                   handleToggleFeatured onUpdateGallery rendered toggled) p1) in
  items !! k = Some item ->
  galleryItems (manager p1) !! k = Some toggled /\
  is_featured toggled = negb (is_featured item) /\
  galleryItems (manager p2) !! k = Some restored /\
  is_featured restored = is_featured item /\
  order toggled = order item /\
  order restored = order item /\
  (is_Some (featured item) -> restored = item) /\
  (forall (j : nat) other,
     items !! j = Some other -> id other ≠ id item ->
     galleryItems (manager p1) !! j = Some other /\
     galleryItems (manager p2) !! j = Some other) /\
  (NoDup (id <$> items) ->
     galleryItems (manager p1) = <[k := toggled]> items /\
     galleryItems (manager p2) = <[k := restored]> items /\
     order <$> galleryItems (manager p1) = order <$> items /\
     order <$> galleryItems (manager p2) = order <$> items).
Proof.
  intros items toggled restored p1 p2 Hk.
  assert (galleryItems (manager p1)
          = (fun i => if bool_decide (id i = id item) then toggled else i) <$> items)
    as H1.
  { unfold p1, run_handler. by rewrite toggle_run, committed_items. }
  assert (galleryItems (manager p2)
          = (fun i => if bool_decide (id i = id item) then restored else i)
              <$> galleryItems (manager p1))
    as H2.
  { unfold p2, run_handler. rewrite toggle_run, committed_items.
    unfold toggled at 2 3. by rewrite is_featured_set, negb_involutive. }
  assert (forall b, order <$> <[k := set_featured b item]> items = order <$> items)
    as Horder.
  { intros b. rewrite list_fmap_insert. simpl.
    apply list_insert_id. by rewrite list_lookup_fmap, Hk. }
  split_and!; try done.
  - rewrite H1, list_lookup_fmap, Hk. simpl. by rewrite bool_decide_eq_true_2.
  - rewrite H2, H1, !list_lookup_fmap, Hk. simpl.
    rewrite (bool_decide_eq_true_2 (id item = id item)) by done.
    by rewrite bool_decide_eq_true_2.
  - intros [b Hb]. unfold restored, is_featured. rewrite Hb.
    by apply set_featured_same.
  - intros j other Hj Hid.
    rewrite H2, H1, !list_lookup_fmap, Hj. simpl.
    by rewrite !(bool_decide_eq_false_2 (id other = id item)) by done.
  - intros Hnodup.
    assert (galleryItems (manager p1) = <[k := toggled]> items) as H1'.
    { rewrite H1. by apply replace_by_id. }
    assert (galleryItems (manager p2) = <[k := restored]> items) as H2'.
    { rewrite H2, H1'.
      rewrite (replace_by_id _ k toggled restored).
      - apply list_insert_insert_eq.
      - rewrite list_fmap_insert. simpl.
        rewrite list_insert_id; [done|]. by rewrite list_lookup_fmap, Hk.
      - apply list_lookup_insert_eq. by eapply lookup_lt_Some. }
    split_and!; [done|done| |].
    + rewrite H1'. apply Horder.
    + rewrite H2'. apply Horder.
Qed.

(** C9. [handleDeleteItem] keeps the items whose identifier differs
    from the given one, in their sequence, and numbers them: the item at
    position [k] of the result is the [k]-th kept item with order [k].
    The order values are 0, 1, ..., n-1 and the identifier is gone. *)
Theorem delete_item_reindexes (p : Page) (item_id : Z) :
  let items := galleryItems (manager p) in
  let kept := filter (fun item => id item ≠ item_id) items in
  let result := galleryItems (manager (snd (run_handler (fun rendered =>
                  handleDeleteItem onUpdateGallery rendered item_id) p))) in
  run_handler (fun rendered => handleDeleteItem onUpdateGallery rendered item_id) p
    = committed onUpdateGallery result p /\
  length result = length kept /\
  (forall k : nat, result !! k = set_order (Z.of_nat k) <$> kept !! k) /\
  order <$> result = (fun k : nat => Some (Z.of_nat k)) <$> seq 0 (length kept) /\
  id <$> result = filter (fun i => i ≠ item_id) (id <$> items) /\
  item_id ∉ id <$> result.
Proof.
  intros items kept result.
  assert (result = imap (fun index item => set_order (Z.of_nat index) item) kept) as Hres.
  { unfold result, run_handler, handleDeleteItem.
    by rewrite commit_run, committed_items. }
  assert (id <$> result = filter (fun i => i ≠ item_id) (id <$> items)) as Hids.
  { rewrite Hres. unfold kept. clear.
    transitivity (id <$> filter (fun item => id item ≠ item_id) items).
    - apply list_eq. intros k. rewrite !list_lookup_fmap, list_lookup_imap.
      by destruct (_ !! k).
    - induction items as [|item rest IH]; [done|].
      rewrite fmap_cons, !filter_cons. simpl.
      case_decide; rewrite ?fmap_cons, IH; done. }
  split_and!.
  - unfold run_handler, handleDeleteItem. rewrite commit_run.
    by rewrite Hres.
  - rewrite Hres. apply length_imap.
  - intros k. by rewrite Hres, list_lookup_imap.
  - rewrite Hres. apply list_eq. intros k.
    rewrite !list_lookup_fmap, list_lookup_imap.
    destruct (kept !! k) as [item|] eqn:Hk; simpl.
    + rewrite lookup_seq_lt by (by eapply lookup_lt_Some). done.
    + rewrite lookup_seq_ge; [done|]. by apply lookup_ge_None.
  - exact Hids.
  - rewrite Hids. intros Hin. apply list_elem_of_filter in Hin as [Hne _]. done.
Qed.

End EditClaims.

Section AddClaims.
Import Store Manager.

Variable onUpdateGallery : list GalleryItem -> Js World unit.

Lemma nonempty_true s : nonempty s = true <-> s ≠ EmptyString.
Proof. destruct s; simpl; split; done. Qed.

(** The image reference that [handleAddGalleryItem] stores for the
    reference the form holds. *)
Lemma add_run (p : Page) :
  let form := newItem (manager p) in
  let items := galleryItems (manager p) in
  let stored_url :=
    if String.prefix "blob:" (new_imageUrl form) then
      match blob_to_data_url (world p) (new_imageUrl form) with
      | inr base64 => base64
      | inl _ => new_imageUrl form
      end
    else new_imageUrl form in
  let added :=
    mkItem (clock (world p)) stored_url (new_title form) (new_description form)
           (new_alt form) (Some (Z.of_nat (length items))) (new_featured form) in
  nonempty (new_title form) && nonempty (new_description form) = true ->
  galleryItems (manager (snd (run_handler (handleAddGalleryItem onUpdateGallery) p)))
    = items ++ [added].
Proof.
  intros form items stored_url added Hvalid.
  unfold run_handler, handleAddGalleryItem. fold form. rewrite Hvalid.
  unfold added, stored_url, items. clear added stored_url.
  unfold setIsProcessing, setGalleryItems, setNewItem, setUploadSuccess,
    setUploadError, setTimeout, in_manager, in_world.
  js_unfold. simpl. fold form.
  destruct (String.prefix "blob:" (new_imageUrl form)); simpl.
  - destruct (blob_to_data_url (world p) (new_imageUrl form)) as [error|base64]; simpl;
      destruct (onUpdateGallery _ _) as [[[]|error'|] w']; done.
  - destruct (onUpdateGallery _ _) as [[[]|error'|] w']; done.
Qed.

(** C8. With a non-empty title and a non-empty description,
    [handleAddGalleryItem] makes the list one item longer: the new item
    is appended, carries the form's title and description, and has the
    prior length as its order.  Otherwise the validation message is
    set, its timer is started, and nothing else changes: not the list,
    not the storage, no call of [onUpdateGallery]. *)
Theorem add_item_appends_or_rejects (p : Page) :
  let form := newItem (manager p) in
  let items := galleryItems (manager p) in
  let after := run_handler (handleAddGalleryItem onUpdateGallery) p in
  if decide (new_title form ≠ EmptyString /\ new_description form ≠ EmptyString) then
    exists added,
      galleryItems (manager (snd after)) = items ++ [added] /\
      length (galleryItems (manager (snd after))) = S (length items) /\
      order added = Some (Z.of_nat (length items)) /\
      title added = new_title form /\
      description added = new_description form
  else
    after = (Returned tt,
             mkPage (world p)
               (with_timeout ClearUploadError 3000
                  (with_uploadError "Por favor complete todos los campos"
                     (manager p)))) /\
    galleryItems (manager (snd after)) = items.
Proof.
  intros form items after.
  case_decide as Hvalid.
  - destruct Hvalid as [Ht Hd].
    apply nonempty_true in Ht, Hd.
    eexists. split_and!.
    + unfold after. apply add_run. fold form. by rewrite Ht, Hd.
    + unfold after. rewrite add_run by (fold form; by rewrite Ht, Hd).
      rewrite length_app. simpl. fold items. lia.
    + done.
    + done.
    + done.
  - assert (nonempty (new_title form) && nonempty (new_description form) = false)
      as Hinvalid.
    { apply not_true_is_false. intros Hboth.
      apply andb_true_iff in Hboth as [Ht Hd].
      apply nonempty_true in Ht, Hd. by apply Hvalid. }
    unfold after, run_handler, handleAddGalleryItem. fold form. rewrite Hinvalid.
    split; [|done]. done.
Qed.

End AddClaims.

Section Examples.
Import Store Manager.

(** C2 does not hold of the code.  The form holds a transient [blob:]
    reference and its conversion fails: the handler logs the failure,
    goes on, appends the item with the transient reference, hands the
    list to [onUpdateGallery] (here the store, which persists it and
    dispatches the event) and reports success, with no error message. *)
Theorem add_commits_transient_reference_on_failure :
  let form := mkNewItem "blob:abc" "A" "d" None None None in
  let p := mkPage (browser ∅ 1000)
             (with_newItem form (initial_state [])) in
  let after := run_handler (handleAddGalleryItem (saveGalleryItems eventos)) p in
  let added := mkItem 1000 "blob:abc" "A" "d" None (Some 0) None in
  blob_to_data_url (world p) "blob:abc" = inl (FetchError "blob:abc") /\
  fst after = Returned tt /\
  galleryItems (manager (snd after)) = [added] /\
  localStorage (world (snd after)) !! storage_key eventos = Some (JsonText [added]) /\
  dispatched (world (snd after)) = [mkEvent eventos [added]] /\
  console (world (snd after)) = [ErrorBlobToBase64 (FetchError "blob:abc")] /\
  uploadSuccess (manager (snd after)) = true /\
  uploadError (manager (snd after)) = EmptyString.
Proof. split_and!; reflexivity. Qed.

(** The same form when the conversion succeeds: the stored reference is
    the data URL. *)
Example add_converts_transient_reference :
  let form := mkNewItem "blob:abc" "A" "d" None None None in
  let w := mkWorld true ∅ (fun _ _ => true) [] [] 1000
             (fun _ => inr "data:image/jpeg;base64,AAAA") in
  let p := mkPage w (with_newItem form (initial_state [])) in
  galleryItems (manager (snd (run_handler
      (handleAddGalleryItem (saveGalleryItems eventos)) p)))
    = [mkItem 1000 "data:image/jpeg;base64,AAAA" "A" "d" None (Some 0) None].
Proof. reflexivity. Qed.

Lemma toggle_featured_twice_witness :
  let a := mkItem 1 "/a.png" "A" "d" None (Some 0) None in
  let b := mkItem 2 "/b.png" "B" "d" None (Some 1) (Some true) in
  let p := mkPage (browser ∅ 0) (initial_state [a; b]) in
  let p1 := snd (run_handler (fun rendered =>
                   handleToggleFeatured (saveGalleryItems hero) rendered b) p) in
  let p2 := snd (run_handler (fun rendered =>
                   handleToggleFeatured (saveGalleryItems hero) rendered
                     (set_featured false b)) p1) in
  galleryItems (manager p1) !! 1%nat = Some (set_featured false b) /\
  galleryItems (manager p2) !! 1%nat = Some b.
Proof.
  intros a b p p1 p2.
  destruct (toggle_featured_twice (saveGalleryItems hero) p 1 b eq_refl)
    as (H1 & _ & H2 & _).
  split; [exact H1|exact H2].
Defined.

End Examples.

Section EditUnknown.
Import Store Manager.

(** C10. Editing with an item whose identifier no item of the list has
    is not rejected and reports nothing.  [updateGalleryItem] writes the
    list it has read back to the storage and dispatches the event with
    the gallery identifier and that list; [handleSaveEditedItem] keeps
    the in-memory list and hands it to [onUpdateGallery], which, being
    the store, writes it and dispatches the event as well.  The list
    written is the list read, an item without an order receiving its
    index as the store does on every write. *)
Theorem edit_unknown_id_rewrites (g : GalleryType) (updatedItem : GalleryItem)
    (p : Page) (stored : list GalleryItem) :
  let w := world p in
  let items := galleryItems (manager p) in
  window_defined w = true ->
  fst (getGalleryItems g w) = Returned stored ->
  id updatedItem ∉ id <$> stored ->
  id updatedItem ∉ id <$> items ->
  storage_accepts w (storage_key g) (JsonText (itemsWithOrder stored)) = true ->
  storage_accepts w (storage_key g) (JsonText (itemsWithOrder items)) = true ->
  (exists w',
     updateGalleryItem g updatedItem w = (Returned tt, w') /\
     localStorage w'
       = <[storage_key g := JsonText (itemsWithOrder stored)]> (localStorage w) /\
     dispatched w' = dispatched w ++ [mkEvent g (itemsWithOrder stored)] /\
     console w' = console (snd (getGalleryItems g w))) /\
  (exists p',
     run_handler (fun rendered =>
         handleSaveEditedItem (saveGalleryItems g) rendered updatedItem) p
       = (Returned tt, p') /\
     manager p' = with_galleryItems items (manager p) /\
     galleryItems (manager p') = items /\
     localStorage (world p')
       = <[storage_key g := JsonText (itemsWithOrder items)]> (localStorage w) /\
     dispatched (world p') = dispatched w ++ [mkEvent g (itemsWithOrder items)] /\
     console (world p') = console w) /\
  (Forall (fun item => is_Some (order item)) stored -> itemsWithOrder stored = stored) /\
  (Forall (fun item => is_Some (order item)) items -> itemsWithOrder items = items).
Proof.
  intros w items Hwin Hget Hstored Hitems Hacc_stored Hacc_items.
  split_and!.
  - unfold updateGalleryItem.
    unfold mbind at 1, Js_bind, bind at 1, gets. rewrite Hwin. simpl.
    destruct (getGalleryItems_returns g w)
      as (stored' & w1 & Hrun & Hwin1 & Hstore1 & Hacc1 & Hev1).
    rewrite Hrun in Hget |- *. simpl in Hget. injection Hget as ->.
    unfold try_catch, mbind, Js_bind, bind. rewrite Hrun.
    rewrite replace_unknown_id by done.
    rewrite saveGalleryItems_run, Hwin1, Hwin, Hacc1, Hacc_stored.
    eexists. split; [reflexivity|]. simpl. by rewrite Hstore1, Hev1.
  - unfold run_handler, handleSaveEditedItem.
    rewrite replace_unknown_id by done.
    rewrite commit_run. unfold committed. fold w items.
    rewrite saveGalleryItems_run, Hwin, Hacc_items.
    eexists. split; [reflexivity|]. simpl. done.
  - apply itemsWithOrder_id.
  - apply itemsWithOrder_id.
Qed.

End EditUnknown.

Section EditUnknownExample.
Import Store Manager.

Lemma edit_unknown_id_rewrites_witness :
  let updatedItem := mkItem 99 "/z.png" "Z" "d" None (Some 0) None in
  let a := mkItem 1 "/a.png" "A" "d" None (Some 0) None in
  let p := mkPage (browser ∅ 0)
             (initial_state [a]) in
  exists w',
    updateGalleryItem eventos updatedItem (world p) = (Returned tt, w') /\
    localStorage w' !! storage_key eventos
      = Some (JsonText (INITIAL_GALLERIES eventos)) /\
    dispatched w' = [mkEvent eventos (INITIAL_GALLERIES eventos)].
Proof.
  intros updatedItem a p.
  destruct (edit_unknown_id_rewrites eventos updatedItem p (INITIAL_GALLERIES eventos))
    as ((w' & Hrun & Hstore & Hev & _) & _).
  - reflexivity.
  - reflexivity.
  - intros Hin. apply list_elem_of_In in Hin. simpl in Hin.
    destruct Hin as [H|[H|[]]]; discriminate H.
  - intros Hin. apply list_elem_of_In in Hin. simpl in Hin.
    destruct Hin as [H|[]]; discriminate H.
  - reflexivity.
  - reflexivity.
  - exists w'. split; [exact Hrun|]. split.
    + rewrite Hstore. apply lookup_insert_eq.
    + exact Hev.
Defined.

End EditUnknownExample.

(** * Further properties of the store *)

Section StoreFrames.
Import Store.

Lemma storage_key_inj g g' : storage_key g = storage_key g' -> g = g'.
Proof. destruct g, g'; simpl; intros H; try done; discriminate H. Qed.

(** What a reader is given depends on the window flag and on the
    gallery's own entry only. *)
Lemma getGalleryItems_same_entry g w w' :
  window_defined w' = window_defined w ->
  localStorage w' !! storage_key g = localStorage w !! storage_key g ->
  fst (getGalleryItems g w') = fst (getGalleryItems g w).
Proof.
  intros Hwin Hentry. rewrite !getGalleryItems_run, Hwin, Hentry.
  destruct (window_defined w); [|done].
  destruct (localStorage w !! storage_key g) as [[items|raw]|]; try done.
  by destruct (truthy (OtherText raw)).
Qed.

(** X1. A write that the storage rejects is swallowed: the call returns
    normally, the entries and the dispatched events are what they were,
    the console has one more entry, and every reader gets what it got
    before. *)
Theorem saveGalleryItems_rejected (g : GalleryType) (items : list GalleryItem)
    (w : World) :
  window_defined w = true ->
  storage_accepts w (storage_key g) (JsonText (itemsWithOrder items)) = false ->
  let w' := snd (saveGalleryItems g items w) in
  fst (saveGalleryItems g items w) = Returned tt /\
  localStorage w' = localStorage w /\
  dispatched w' = dispatched w /\
  console w' = console w ++ [ErrorSaving g (QuotaExceededError (storage_key g))] /\
  forall g', fst (getGalleryItems g' w') = fst (getGalleryItems g' w).
Proof.
  intros Hwin Hrej. simpl. rewrite saveGalleryItems_run, Hwin, Hrej. simpl.
  split_and!; try done.
  intros g'. by apply getGalleryItems_same_entry.
Qed.

(** X2. A save touches the entry of its own gallery only: the entry of
    every other gallery, and what a reader of that gallery is given,
    stay the same. *)
Theorem saveGalleryItems_other_gallery (g g' : GalleryType)
    (items : list GalleryItem) (w : World) :
  g <> g' ->
  let w' := snd (saveGalleryItems g items w) in
  localStorage w' !! storage_key g' = localStorage w !! storage_key g' /\
  fst (getGalleryItems g' w') = fst (getGalleryItems g' w).
Proof.
  intros Hne. simpl.
  assert (window_defined (snd (saveGalleryItems g items w)) = window_defined w /\
          localStorage (snd (saveGalleryItems g items w)) !! storage_key g'
            = localStorage w !! storage_key g') as [Hwin Hentry].
  { rewrite saveGalleryItems_run.
    destruct (window_defined w) eqn:Hw; simpl; [|done].
    destruct (storage_accepts w _ _); simpl; [|done].
    split; [done|]. apply lookup_insert_ne.
    intros Hkey. by apply Hne, storage_key_inj. }
  split; [done|]. by apply getGalleryItems_same_entry.
Qed.

End StoreFrames.

Section StoreFramesExamples.
Import Store.

Lemma saveGalleryItems_rejected_witness :
  let w := mkWorld true ∅ (fun _ _ => false) [] [] 0 (fun url => inl (FetchError url)) in
  fst (saveGalleryItems hero [] w) = Returned tt /\
  localStorage (snd (saveGalleryItems hero [] w)) = ∅.
Proof.
  intros w.
  destruct (saveGalleryItems_rejected hero [] w eq_refl eq_refl)
    as (Hret & Hstore & _).
  split; [exact Hret|exact Hstore].
Defined.

Lemma saveGalleryItems_other_gallery_witness :
  localStorage (snd (saveGalleryItems hero [] (browser ∅ 0))) !! storage_key eventos
    = None.
Proof.
  destruct (saveGalleryItems_other_gallery hero eventos [] (browser ∅ 0))
    as [Hentry _]; [discriminate|].
  rewrite Hentry. reflexivity.
Defined.

End StoreFramesExamples.

Section Alignment.
Import Store.

Lemma aligned_has_order items : aligned items -> Forall (fun item => is_Some (order item)) items.
Proof.
  intros Hal. apply Forall_lookup_2. intros k item Hk.
  rewrite (Hal k item Hk). by eexists.
Qed.

Lemma aligned_itemsWithOrder items : aligned items -> itemsWithOrder items = items.
Proof. intros Hal. by apply itemsWithOrder_id, aligned_has_order. Qed.

(** Orders that count up from [n] are in ascending order. *)
Lemma counting_sorted (n : nat) items :
  (forall (k : nat) item, items !! k = Some item ->
     order item = Some (Z.of_nat (n + k))) ->
  StronglySorted ascending items.
Proof.
  revert n. induction items as [|x rest IH]; intros n Hcount; [constructor|].
  constructor.
  - apply (IH (S n)). intros k item Hk.
    rewrite (Hcount (S k) item Hk). f_equal. lia.
  - apply Forall_lookup_2. intros k item Hk. unfold ascending.
    rewrite (Hcount 0%nat x eq_refl), (Hcount (S k) item Hk). simpl. lia.
Qed.

Lemma aligned_sorted items : aligned items -> StronglySorted ascending items.
Proof. intros Hal. by apply (counting_sorted 0). Qed.

Lemma sort_by_order_has_order items :
  Forall (fun item => is_Some (order item)) items ->
  Forall (fun item => is_Some (order item)) (sort_by_order items).
Proof. intros Hall. by rewrite sort_by_order_perm. Qed.

Lemma itemsWithOrder_has_order items :
  Forall (fun item => is_Some (order item)) (itemsWithOrder items).
Proof.
  apply Forall_lookup_2. intros k item. rewrite itemsWithOrder_lookup.
  destruct (items !! k); simpl; [|done]. intros [= <-]. by eexists.
Qed.

(** The sort keeps the sequence of the items that share an order value. *)
Lemma insert_by_order_stable (o : Z) x l :
  filter (fun item => order_or_0 item = o) (insert_by_order x l)
    = filter (fun item => order_or_0 item = o) (x :: l).
Proof.
  induction l as [|y rest IH]; simpl; [done|].
  case_decide as Hxy; [done|].
  rewrite filter_cons, IH, !filter_cons.
  unfold by_order, compare_order in Hxy.
  repeat case_decide; try done; lia.
Qed.

Lemma sort_by_order_stable (o : Z) l :
  filter (fun item => order_or_0 item = o) (sort_by_order l)
    = filter (fun item => order_or_0 item = o) l.
Proof.
  induction l as [|x rest IH]; simpl; [done|].
  by rewrite insert_by_order_stable, !filter_cons, IH.
Qed.

End Alignment.

Section StoreRoundTrips.
Import Store.

(** X3. What [getGalleryItems] returns after a persisted save is a
    fixed point of the store: saving that list persists exactly that
    list, and reading again returns it once more. *)
Theorem save_get_fixed_point (g : GalleryType) (x : list GalleryItem) (w : World) :
  window_defined w = true ->
  (forall text, storage_accepts w (storage_key g) text = true) ->
  exists shown,
    fst (getGalleryItems g (snd (saveGalleryItems g x w))) = Returned shown /\
    localStorage (snd (saveGalleryItems g shown (snd (saveGalleryItems g x w))))
      !! storage_key g = Some (JsonText shown) /\
    fst (getGalleryItems g
           (snd (saveGalleryItems g shown (snd (saveGalleryItems g x w)))))
      = Returned shown.
Proof.
  intros Hwin Hacc.
  exists (sort_by_order (itemsWithOrder x)).
  assert (itemsWithOrder (sort_by_order (itemsWithOrder x))
          = sort_by_order (itemsWithOrder x)) as Hnorm.
  { apply itemsWithOrder_id, sort_by_order_has_order, itemsWithOrder_has_order. }
  rewrite !saveGalleryItems_run, Hwin, !Hacc. simpl.
  rewrite Hwin, Hacc. simpl.
  rewrite !getGalleryItems_run. simpl. rewrite Hwin, !lookup_insert_eq, Hnorm.
  split_and!; try done.
  simpl. f_equal. apply sort_by_order_id, sort_by_order_sorted.
Qed.

(** X4. Reading is stable: among the items of a stored list that have
    the same order value (a missing order counting as 0),
    [getGalleryItems] keeps the stored sequence. *)
Theorem getGalleryItems_stable (g : GalleryType) (w : World)
    (parsed : list GalleryItem) (o : Z) :
  persisted_entry g w = Some (JsonText parsed) ->
  exists shown,
    fst (getGalleryItems g w) = Returned shown /\
    filter (fun item => default 0 (order item) = o) shown
      = filter (fun item => default 0 (order item) = o) parsed.
Proof.
  unfold persisted_entry. intros Hentry.
  rewrite getGalleryItems_run.
  destruct (window_defined w); [|done]. rewrite Hentry.
  eexists; split; [done|]. apply (sort_by_order_stable o).
Qed.

End StoreRoundTrips.

Section StoreRoundTripsExamples.
Import Store.

Lemma save_get_fixed_point_witness :
  exists shown,
    fst (getGalleryItems hero
           (snd (saveGalleryItems hero
                   [mkItem 7 "/a.png" "A" "d" None (Some 3) None;
                    mkItem 8 "/b.png" "B" "d" None None None] (browser ∅ 0))))
      = Returned shown.
Proof.
  destruct (save_get_fixed_point hero
              [mkItem 7 "/a.png" "A" "d" None (Some 3) None;
               mkItem 8 "/b.png" "B" "d" None None None] (browser ∅ 0))
    as (shown & Hget & _); [reflexivity|reflexivity|].
  exists shown. exact Hget.
Defined.

Lemma getGalleryItems_stable_witness :
  let a := mkItem 7 "/a.png" "A" "d" None (Some 1) None in
  let b := mkItem 8 "/b.png" "B" "d" None None None in
  let c := mkItem 9 "/c.png" "C" "d" None (Some 1) None in
  exists shown,
    fst (getGalleryItems hero
           (browser {[ storage_key hero := JsonText [a; b; c] ]} 0)) = Returned shown /\
    filter (fun item => default 0 (order item) = 1) shown = [a; c].
Proof.
  intros a b c.
  apply (getGalleryItems_stable hero
           (browser {[ storage_key hero := JsonText [a; b; c] ]} 0) [a; b; c] 1).
  reflexivity.
Defined.

End StoreRoundTripsExamples.

Section ReorderKnown.
Import Store.

Variable galleryType : GalleryType.
Variable items : list GalleryItem.

Lemma find_known item_id :
  item_id ∈ id <$> items ->
  exists item,
    List.find (fun i => bool_decide (id i = item_id)) items = Some item /\
    item ∈ items /\ id item = item_id.
Proof.
  intros Hin. apply list_elem_of_fmap in Hin as (found & -> & Hfound).
  destruct (List.find (fun i => bool_decide (id i = id found)) items)
    as [item|] eqn:Hfind.
  - apply find_some in Hfind as [Hin Hid].
    apply bool_decide_eq_true in Hid. apply list_elem_of_In in Hin. eauto.
  - apply list_elem_of_In in Hfound.
    pose proof (find_none _ _ Hfind found Hfound) as Hno. simpl in Hno.
    by rewrite bool_decide_eq_true_2 in Hno.
Qed.

(** With known identifiers only, the [map] returns one item per
    identifier: the item of the gallery, its order replaced by the
    position. *)
Lemma reorder_map_known itemIds (n : nat) w :
  Forall (fun item_id => item_id ∈ id <$> items) itemIds ->
  exists picked,
    map_indexed (reorder_step galleryType items) n itemIds w = (Returned picked, w) /\
    id <$> picked = itemIds /\
    (forall (k : nat) item', picked !! k = Some item' ->
       exists item, item ∈ items /\ item' = set_order (Z.of_nat (n + k)) item).
Proof.
  intros Hknown. revert n.
  induction Hknown as [|item_id rest Hid _ IH]; intros n.
  { exists []. split; [done|]. split; [done|]. by intros k item'. }
  rewrite map_indexed_cons, reorder_step_run.
  destruct (find_known item_id Hid) as (item & -> & Hin & Hitem).
  destruct (IH (S n)) as (picked & -> & Hids & Hpicked).
  exists (set_order (Z.of_nat n) item :: picked).
  split; [done|]. split.
  - rewrite fmap_cons, Hids. simpl. by rewrite Hitem.
  - intros [|k] item' Hk; simpl in Hk.
    + injection Hk as <-. exists item. split; [done|]. do 2 f_equal. lia.
    + destruct (Hpicked k item' Hk) as (other & Hother & ->).
      exists other. split; [done|]. do 2 f_equal. lia.
Qed.

End ReorderKnown.

Section StoreWrites.
Import Store.

(** X5. With identifiers of the gallery only, [reorderGalleryItems]
    persists one item per listed identifier, in the listed sequence,
    each item of the gallery with its position as order; items that the
    list does not name are dropped.  The event carries that list and a
    reader gets exactly that list. *)
Theorem reorderGalleryItems_known_ids (g : GalleryType) (itemIds : list Z)
    (w : World) (items : list GalleryItem) :
  window_defined w = true ->
  fst (getGalleryItems g w) = Returned items ->
  Forall (fun item_id => item_id ∈ id <$> items) itemIds ->
  (forall text, storage_accepts w (storage_key g) text = true) ->
  exists stored w',
    reorderGalleryItems g itemIds w = (Returned tt, w') /\
    localStorage w' !! storage_key g = Some (JsonText stored) /\
    dispatched w' = dispatched w ++ [mkEvent g stored] /\
    id <$> stored = itemIds /\
    aligned stored /\
    (forall item', item' ∈ stored ->
       exists item o, item ∈ items /\ item' = set_order o item) /\
    fst (getGalleryItems g w') = Returned stored.
Proof.
  intros Hwin Hget Hknown Hacc.
  unfold reorderGalleryItems.
  unfold mbind at 1, Js_bind, bind at 1, gets. rewrite Hwin. simpl.
  destruct (getGalleryItems_returns g w)
    as (items' & w1 & Hrun & Hwin1 & Hstore1 & Hacc1 & Hev1).
  rewrite Hrun in Hget. simpl in Hget. injection Hget as ->.
  unfold try_catch, mbind, Js_bind, bind. rewrite Hrun.
  destruct (reorder_map_known g items itemIds 0 w1 Hknown)
    as (picked & -> & Hids & Hpicked).
  assert (aligned picked) as Hal.
  { intros k item' Hk. by destruct (Hpicked k item' Hk) as (item & _ & ->). }
  rewrite saveGalleryItems_run, Hwin1, Hwin, Hacc1, Hacc.
  rewrite (aligned_itemsWithOrder picked Hal).
  eexists picked, _. split; [reflexivity|]. simpl.
  split; [apply lookup_insert_eq|]. split; [by rewrite Hev1|].
  split; [done|]. split; [done|]. split.
  - intros item' Hin. apply list_elem_of_lookup in Hin as [k Hk].
    destruct (Hpicked k item' Hk) as (item & Hitem & ->). eauto.
  - rewrite getGalleryItems_run. simpl. rewrite Hwin1, Hwin, lookup_insert_eq.
    simpl. f_equal. by apply sort_by_order_id, aligned_sorted.
Qed.

(** X6. With distinct identifiers in the gallery, [updateGalleryItem]
    replaces the one item that has the identifier of the updated item,
    wholesale, at its position in the list as read; the list is then
    persisted as every save does and the event carries it. *)
Theorem updateGalleryItem_known_id (g : GalleryType) (updatedItem : GalleryItem)
    (w : World) (items : list GalleryItem) (k : nat) (old : GalleryItem) :
  window_defined w = true ->
  fst (getGalleryItems g w) = Returned items ->
  NoDup (id <$> items) ->
  items !! k = Some old ->
  id old = id updatedItem ->
  (forall text, storage_accepts w (storage_key g) text = true) ->
  exists stored w',
    updateGalleryItem g updatedItem w = (Returned tt, w') /\
    localStorage w' !! storage_key g = Some (JsonText stored) /\
    dispatched w' = dispatched w ++ [mkEvent g stored] /\
    length stored = length items /\
    stored !! k
      = Some (set_order (default (Z.of_nat k) (order updatedItem)) updatedItem) /\
    (forall j : nat, j <> k -> stored !! j = itemsWithOrder items !! j).
Proof.
  intros Hwin Hget Hnodup Hk Hid Hacc.
  unfold updateGalleryItem.
  unfold mbind at 1, Js_bind, bind at 1, gets. rewrite Hwin. simpl.
  destruct (getGalleryItems_returns g w)
    as (items' & w1 & Hrun & Hwin1 & Hstore1 & Hacc1 & Hev1).
  rewrite Hrun in Hget. simpl in Hget. injection Hget as ->.
  unfold try_catch, mbind, Js_bind, bind. rewrite Hrun.
  rewrite <- Hid, (replace_by_id items k old updatedItem Hnodup Hk).
  rewrite saveGalleryItems_run, Hwin1, Hwin, Hacc1, Hacc.
  eexists _, _. split; [reflexivity|]. simpl.
  split; [apply lookup_insert_eq|]. split; [by rewrite Hev1|].
  split; [by rewrite length_itemsWithOrder, length_insert|]. split.
  - rewrite itemsWithOrder_lookup, list_lookup_insert_eq by (by eapply lookup_lt_Some).
    done.
  - intros j Hj. rewrite !itemsWithOrder_lookup.
    by rewrite list_lookup_insert_ne by done.
Qed.

End StoreWrites.

Section StoreWritesExamples.
Import Store.

Lemma reorderGalleryItems_known_ids_witness :
  exists stored w',
    reorderGalleryItems hero [3; 1] (browser ∅ 0) = (Returned tt, w') /\
    localStorage w' !! storage_key hero = Some (JsonText stored) /\
    id <$> stored = [3; 1].
Proof.
  destruct (reorderGalleryItems_known_ids hero [3; 1] (browser ∅ 0)
              (INITIAL_GALLERIES hero))
    as (stored & w' & Hrun & Hstore & _ & Hids & _).
  - reflexivity.
  - reflexivity.
  - repeat constructor; apply list_elem_of_In; simpl; auto.
  - reflexivity.
  - exists stored, w'. split; [exact Hrun|]. split; [exact Hstore|exact Hids].
Defined.

Lemma updateGalleryItem_known_id_witness :
  let updatedItem := mkItem 2 "/z.png" "Z" "d" None None (Some true) in
  exists stored w',
    updateGalleryItem eventos updatedItem (browser ∅ 0) = (Returned tt, w') /\
    localStorage w' !! storage_key eventos = Some (JsonText stored) /\
    stored !! 1%nat = Some (set_order 1 updatedItem).
Proof.
  intros updatedItem.
  destruct (updateGalleryItem_known_id eventos updatedItem (browser ∅ 0)
              (INITIAL_GALLERIES eventos) 1
              (mkItem 2 "/placeholder.svg?height=400&width=600"
                 "Evento comunitario"
                 "Participación en evento comunitario local."
                 None (Some 1) None))
    as (stored & w' & Hrun & Hstore & _ & _ & Hk & _).
  - reflexivity.
  - reflexivity.
  - simpl. apply NoDup_cons. split; [|apply NoDup_singleton].
    intros Hin. apply list_elem_of_In in Hin. simpl in Hin.
    destruct Hin as [H|[]]. discriminate H.
  - reflexivity.
  - reflexivity.
  - reflexivity.
  - exists stored, w'. split; [exact Hrun|]. split; [exact Hstore|exact Hk].
Defined.

End StoreWritesExamples.

Section Initialize.
Import Store.

Lemma initialize_step_run g w :
  initialize_step g w =
    if match localStorage w !! storage_key g with
       | Some text => truthy text
       | None => false
       end
    then (Returned tt, w)
    else if storage_accepts w (storage_key g) (JsonText (INITIAL_GALLERIES g))
         then (Returned tt,
               set_localStorage
                 (<[storage_key g := JsonText (INITIAL_GALLERIES g)]> (localStorage w)) w)
         else (Threw (QuotaExceededError (storage_key g)), w).
Proof.
  unfold initialize_step. js_unfold. simpl.
  destruct (localStorage w !! storage_key g) as [text|]; simpl.
  - destruct (truthy text); simpl; [done|].
    by destruct (storage_accepts w (storage_key g) _).
  - by destruct (storage_accepts w (storage_key g) _).
Qed.

Lemma for_each_cons {St A} (f : A -> Js St unit) x rest s :
  for_each f (x :: rest) s =
    match f x s with
    | (Returned _, s') => for_each f rest s'
    | (Threw e, s') => (Threw e, s')
    | (Untyped, s') => (Untyped, s')
    end.
Proof. simpl. js_unfold. by destruct (f x s) as [[[]| |] s']. Qed.

Lemma entry_missing_truthy g w :
  entry_missing g w <->
  match localStorage w !! storage_key g with
  | Some text => truthy text
  | None => false
  end = false.
Proof. unfold entry_missing. by destruct (localStorage w !! storage_key g). Qed.

(** Whatever part of the loop has run, an entry is what it was, or it
    was missing and now holds the seed data; nothing else of the world
    has changed. *)
Lemma initialize_loop_entries l w g :
  let w' := snd (for_each initialize_step l w) in
  window_defined w' = window_defined w /\
  storage_accepts w' = storage_accepts w /\
  dispatched w' = dispatched w /\
  console w' = console w /\
  (localStorage w' !! storage_key g = localStorage w !! storage_key g \/
   (entry_missing g w /\
    localStorage w' !! storage_key g = Some (JsonText (INITIAL_GALLERIES g)))).
Proof.
  revert w. induction l as [|x rest IH]; intros w; simpl; [by auto 10|].
  pose proof (for_each_cons initialize_step x rest w) as Hcons.
  simpl in Hcons. rewrite Hcons. clear Hcons. rewrite initialize_step_run.
  destruct (match localStorage w !! storage_key x with
            | Some text => truthy text
            | None => false
            end) eqn:Hx; [apply IH|].
  destruct (storage_accepts w (storage_key x) _) eqn:Hacc; simpl; [|by auto 10].
  specialize (IH (set_localStorage
                    (<[storage_key x := JsonText (INITIAL_GALLERIES x)]> (localStorage w)) w)).
  simpl in IH. destruct IH as (Hwin & Hac & Hev & Hcon & Hentry).
  split; [done|]. split; [done|]. split; [done|]. split; [done|].
  destruct (decide (storage_key x = storage_key g)) as [Heq|Hkey].
  - apply storage_key_inj in Heq as ->.
    right. split; [by apply entry_missing_truthy|].
    destruct Hentry as [Hsame|[_ Hseed]]; [|done].
    by rewrite Hsame, lookup_insert_eq.
  - destruct Hentry as [Hsame|[Hmiss Hseed]].
    + left. by rewrite Hsame, lookup_insert_ne.
    + right. split; [|done].
      unfold entry_missing in *. simpl in Hmiss.
      by rewrite lookup_insert_ne in Hmiss.
Qed.

(** After a loop that has come to its end, no gallery of the loop has
    a missing entry. *)
Lemma initialize_loop_complete l w g :
  fst (for_each initialize_step l w) = Returned tt ->
  g ∈ l ->
  ~ entry_missing g (snd (for_each initialize_step l w)).
Proof.
  revert w. induction l as [|x rest IH]; intros w Hret Hin;
    [by apply elem_of_nil in Hin|].
  pose proof (for_each_cons initialize_step x rest w) as Hcons.
  simpl in Hcons, Hret |- *. rewrite Hcons in Hret |- *. clear Hcons.
  rewrite initialize_step_run in Hret |- *.
  assert (forall w1,
            ~ entry_missing x w1 ->
            fst (for_each initialize_step rest w1) = Returned tt ->
            ~ entry_missing g (snd (for_each initialize_step rest w1))) as Hrest.
  { intros w1 Hx Hret1.
    apply elem_of_cons in Hin as [->|Hin]; [|by apply IH].
    intros Hmiss. apply Hx.
    destruct (initialize_loop_entries rest w1 x) as (_ & _ & _ & _ & [Hsame|[Hm _]]);
      [|done].
    unfold entry_missing in *. by rewrite <- Hsame. }
  destruct (match localStorage w !! storage_key x with
            | Some text => truthy text
            | None => false
            end) eqn:Hx.
  - apply Hrest; [|done]. rewrite entry_missing_truthy, Hx. done.
  - destruct (storage_accepts w (storage_key x) _); [|done].
    apply Hrest; [|done].
    unfold entry_missing. simpl. by rewrite lookup_insert_eq.
Qed.

Lemma elem_of_gallery_types g : g ∈ gallery_types.
Proof. unfold gallery_types. destruct g; set_solver. Qed.

Lemma initial_galleries_sorted g :
  sort_by_order (INITIAL_GALLERIES g) = INITIAL_GALLERIES g.
Proof. by destruct g. Qed.

End Initialize.

Section InitializeProperties.
Import Store.

Lemma initialize_loop_returns l w :
  (forall g, storage_accepts w (storage_key g) (JsonText (INITIAL_GALLERIES g)) = true) ->
  fst (for_each initialize_step l w) = Returned tt.
Proof.
  revert w. induction l as [|x rest IH]; intros w Hacc; [done|].
  rewrite for_each_cons, initialize_step_run.
  destruct (match localStorage w !! storage_key x with
            | Some text => truthy text
            | None => false
            end); [by apply IH|].
  rewrite Hacc. by apply IH.
Qed.

Lemma initialize_step_settled g w :
  ~ entry_missing g w -> initialize_step g w = (Returned tt, w).
Proof.
  intros Hset. rewrite initialize_step_run.
  destruct (match localStorage w !! storage_key g with
            | Some text => truthy text
            | None => false
            end) eqn:Hg; [done|].
  by apply entry_missing_truthy in Hg.
Qed.

Lemma initialize_loop_keeps_settled l w g :
  ~ entry_missing g w -> ~ entry_missing g (snd (for_each initialize_step l w)).
Proof.
  intros Hset Hmiss.
  destruct (initialize_loop_entries l w g) as (_ & _ & _ & _ & [Hsame|[Hm _]]);
    [|done].
  apply Hset. unfold entry_missing in *. by rewrite <- Hsame.
Qed.

Lemma initialize_loop_again l w :
  for_each initialize_step l (snd (for_each initialize_step l w))
    = for_each initialize_step l w.
Proof.
  revert w. induction l as [|x rest IH]; intros w; [done|].
  pose proof (for_each_cons initialize_step x rest w) as Hfirst.
  rewrite initialize_step_run in Hfirst.
  destruct (match localStorage w !! storage_key x with
            | Some text => truthy text
            | None => false
            end) eqn:Hx.
  - rewrite Hfirst, for_each_cons, initialize_step_settled; [apply IH|].
    apply initialize_loop_keeps_settled. rewrite entry_missing_truthy, Hx. done.
  - destruct (storage_accepts w (storage_key x) _) eqn:Hacc.
    + rewrite Hfirst, for_each_cons, initialize_step_settled; [apply IH|].
      apply initialize_loop_keeps_settled.
      unfold entry_missing. simpl. by rewrite lookup_insert_eq.
    + rewrite Hfirst. exact Hfirst.
Qed.

Lemma initialize_run w :
  initializeGalleryStore w =
    if window_defined w then for_each initialize_step gallery_types w
    else (Returned tt, w).
Proof.
  unfold initializeGalleryStore. js_unfold. by destruct (window_defined w).
Qed.

(** X7. When the storage accepts the seed data, [initializeGalleryStore]
    returns normally, dispatches no event and logs nothing; afterwards
    every gallery has an entry: the one it had when that was a
    non-empty text, the seed data otherwise. *)
Theorem initializeGalleryStore_fills_missing (w : World) :
  window_defined w = true ->
  (forall g, storage_accepts w (storage_key g) (JsonText (INITIAL_GALLERIES g)) = true) ->
  fst (initializeGalleryStore w) = Returned tt /\
  dispatched (snd (initializeGalleryStore w)) = dispatched w /\
  console (snd (initializeGalleryStore w)) = console w /\
  forall g,
    localStorage (snd (initializeGalleryStore w)) !! storage_key g =
      match localStorage w !! storage_key g with
      | Some text =>
          if truthy text then Some text else Some (JsonText (INITIAL_GALLERIES g))
      | None => Some (JsonText (INITIAL_GALLERIES g))
      end.
Proof.
  intros Hwin Hacc. rewrite initialize_run, Hwin.
  pose proof (initialize_loop_returns gallery_types w Hacc) as Hret.
  split; [done|].
  destruct (initialize_loop_entries gallery_types w hero) as (_ & _ & Hev & Hcon & _).
  split; [done|]. split; [done|]. intros g.
  pose proof (initialize_loop_complete gallery_types w g Hret
                (elem_of_gallery_types g)) as Hdone.
  destruct (initialize_loop_entries gallery_types w g)
    as (_ & _ & _ & _ & [Hsame|[Hmiss Hseed]]).
  - unfold entry_missing in Hdone. rewrite Hsame in Hdone |- *.
    destruct (localStorage w !! storage_key g) as [text|]; [|done].
    destruct (truthy text); [done|]. by destruct Hdone.
  - rewrite Hseed. unfold entry_missing in Hmiss.
    destruct (localStorage w !! storage_key g) as [text|]; [|done].
    by rewrite Hmiss.
Qed.

(** X8. [initializeGalleryStore] never overwrites an entry that holds a
    non-empty text, readable or not, whether the call returns or
    throws. *)
Theorem initializeGalleryStore_keeps_entries (w : World) (g : GalleryType)
    (text : StoredText) :
  localStorage w !! storage_key g = Some text ->
  truthy text = true ->
  localStorage (snd (initializeGalleryStore w)) !! storage_key g = Some text.
Proof.
  intros Hentry Htruthy. rewrite initialize_run.
  destruct (window_defined w); [|done].
  destruct (initialize_loop_entries gallery_types w g)
    as (_ & _ & _ & _ & [Hsame|[Hmiss _]]).
  - by rewrite Hsame.
  - unfold entry_missing in Hmiss. rewrite Hentry in Hmiss. congruence.
Qed.

(** X9. [initializeGalleryStore] is idempotent: a second call ends as
    the first did and leaves the world as the first left it, whether the
    first returned or threw. *)
Theorem initializeGalleryStore_idempotent (w : World) :
  initializeGalleryStore (snd (initializeGalleryStore w)) = initializeGalleryStore w.
Proof.
  rewrite (initialize_run w).
  destruct (window_defined w) eqn:Hwin.
  - rewrite initialize_run.
    destruct (initialize_loop_entries gallery_types w hero) as (Hwin' & _).
    rewrite Hwin', Hwin. apply initialize_loop_again.
  - rewrite initialize_run. cbn [snd]. by rewrite Hwin.
Qed.

Lemma initialize_loop_throws l w g :
  (forall g', storage_accepts w (storage_key g') (JsonText (INITIAL_GALLERIES g')) = false) ->
  g ∈ l ->
  entry_missing g w ->
  exists g',
    entry_missing g' w /\
    for_each initialize_step l w = (Threw (QuotaExceededError (storage_key g')), w).
Proof.
  intros Hrej Hin Hmiss.
  induction l as [|x rest IH]; [by apply elem_of_nil in Hin|].
  rewrite for_each_cons, initialize_step_run.
  destruct (match localStorage w !! storage_key x with
            | Some text => truthy text
            | None => false
            end) eqn:Hx.
  - apply IH. apply elem_of_cons in Hin as [->|Hin]; [|done].
    apply entry_missing_truthy in Hmiss. congruence.
  - rewrite Hrej. exists x. split; [|done]. by apply entry_missing_truthy.
Qed.

(** X10. The write of [initializeGalleryStore] is not guarded: when a
    gallery has no entry and the storage rejects the seed data, the call
    throws the storage's error and nothing has been written. *)
Theorem initializeGalleryStore_throws (w : World) (g : GalleryType) :
  window_defined w = true ->
  (forall g', storage_accepts w (storage_key g') (JsonText (INITIAL_GALLERIES g')) = false) ->
  entry_missing g w ->
  exists g',
    entry_missing g' w /\
    initializeGalleryStore w = (Threw (QuotaExceededError (storage_key g')), w).
Proof.
  intros Hwin Hrej Hmiss. rewrite initialize_run, Hwin.
  by apply (initialize_loop_throws gallery_types w g Hrej (elem_of_gallery_types g)).
Qed.

(** X11. Initialisation is invisible to readers: for every gallery,
    [getGalleryItems] returns after [initializeGalleryStore] what it
    returned before, whether the initialisation returned or threw. *)
Theorem initializeGalleryStore_same_reads (w : World) (g : GalleryType) :
  fst (getGalleryItems g (snd (initializeGalleryStore w)))
    = fst (getGalleryItems g w).
Proof.
  rewrite initialize_run.
  destruct (window_defined w) eqn:Hwin; [|done].
  destruct (initialize_loop_entries gallery_types w g)
    as (Hwin' & _ & _ & _ & [Hsame|[Hmiss Hseed]]).
  - by apply getGalleryItems_same_entry.
  - rewrite !getGalleryItems_run, Hwin', Hwin, Hseed, initial_galleries_sorted.
    unfold entry_missing in Hmiss.
    destruct (localStorage w !! storage_key g) as [[items|raw]|]; try done.
    by rewrite Hmiss.
Qed.

End InitializeProperties.

Section InitializeExamples.
Import Store.

Lemma initializeGalleryStore_fills_missing_witness :
  fst (initializeGalleryStore (browser ∅ 0)) = Returned tt /\
  localStorage (snd (initializeGalleryStore (browser ∅ 0))) !! storage_key eventos
    = Some (JsonText (INITIAL_GALLERIES eventos)).
Proof.
  destruct (initializeGalleryStore_fills_missing (browser ∅ 0))
    as (Hret & _ & _ & Hentries); [reflexivity|reflexivity|].
  split; [exact Hret|]. rewrite Hentries. reflexivity.
Defined.

Lemma initializeGalleryStore_keeps_entries_witness :
  localStorage
    (snd (initializeGalleryStore
            (browser {[ storage_key hero := OtherText "not json" ]} 0)))
    !! storage_key hero = Some (OtherText "not json").
Proof.
  apply initializeGalleryStore_keeps_entries; reflexivity.
Defined.

Lemma initializeGalleryStore_throws_witness :
  let w := mkWorld true ∅ (fun _ _ => false) [] [] 0 (fun url => inl (FetchError url)) in
  exists g',
    entry_missing g' w /\
    initializeGalleryStore w = (Threw (QuotaExceededError (storage_key g')), w).
Proof.
  intros w.
  apply (initializeGalleryStore_throws w hero); [reflexivity|reflexivity|].
  exact I.
Defined.

End InitializeExamples.

(** * Further properties of the manager *)

Section ManagerLists.
Import Manager.

Variable onUpdateGallery : list GalleryItem -> Js World unit.


Lemma delete_items (p : Page) item_id :
  items_after (fun rendered => handleDeleteItem onUpdateGallery rendered item_id) p
    = imap (fun index item => set_order (Z.of_nat index) item)
        (filter (fun item => id item ≠ item_id) (galleryItems (manager p))).
Proof.
  unfold items_after, run_handler, handleDeleteItem.
  by rewrite commit_run, committed_items.
Qed.







Lemma aligned_imap (items : list GalleryItem) :
  aligned (imap (fun index item => set_order (Z.of_nat index) item) items).
Proof.
  intros k item. rewrite list_lookup_imap.
  destruct (items !! k); simpl; [|done]. by intros [= <-].
Qed.

Lemma aligned_imap_id items :
  aligned items ->
  imap (fun index item => set_order (Z.of_nat index) item) items = items.
Proof.
  intros Hal. apply list_eq. intros k. rewrite list_lookup_imap.
  destruct (items !! k) as [item|] eqn:Hk; simpl; [|done].
  f_equal. apply set_order_same. by apply Hal.
Qed.


End ManagerLists.

Section ManagerIdentifiers.
Import Manager.

Variable onUpdateGallery : list GalleryItem -> Js World unit.






(** X14. Moving an item up and then moving the item that has taken its
    place down again restores the sequence of the items; the two items
    come back with their positions as order, so an aligned list comes
    back as it was. *)
Theorem move_up_then_down (p : Page) (i : nat) (upper lower : GalleryItem) :
  let items := galleryItems (manager p) in
  let p1 := snd (run_handler (fun rendered =>
                   handleMoveUp onUpdateGallery rendered (Z.of_nat (S i))) p) in
  let back := items_after (fun rendered =>
                handleMoveDown onUpdateGallery rendered (Z.of_nat i)) p1 in
  items !! i = Some upper ->
  items !! S i = Some lower ->
  back = <[i := set_order (Z.of_nat i) upper]>
           (<[S i := set_order (Z.of_nat (S i)) lower]> items) /\
  id <$> back = id <$> items /\
  (order upper = Some (Z.of_nat i) -> order lower = Some (Z.of_nat (S i)) ->
   back = items).
Proof.
  intros items p1 back Hupper Hlower.
  pose proof (lookup_lt_Some _ _ _ Hupper) as Hi.
  pose proof (lookup_lt_Some _ _ _ Hlower) as HSi.
  assert (galleryItems (manager p1)
          = <[i := set_order (Z.of_nat i) lower]>
              (<[S i := set_order (Z.of_nat (S i)) upper]> items)) as H1.
  { unfold p1, run_handler, handleMoveUp. fold items.
    destruct (Z.leb_spec (Z.of_nat (S i)) 0); [lia|].
    replace (Z.of_nat (S i) - 1) with (Z.of_nat i) by lia.
    by rewrite !at_index_of_nat, Hupper, Hlower, commit_run, committed_items,
      !Nat2Z.id. }
  assert (back = <[i := set_order (Z.of_nat i) upper]>
                   (<[S i := set_order (Z.of_nat (S i)) lower]> items)) as Hback.
  { unfold back, items_after, run_handler, handleMoveDown. rewrite H1.
    rewrite !length_insert.
    destruct (Z.geb_spec (Z.of_nat i) (Z.of_nat (length items) - 1)); [lia|].
    replace (Z.of_nat i + 1) with (Z.of_nat (S i)) by lia.
    rewrite !at_index_of_nat.
    rewrite list_lookup_insert_eq by (by rewrite length_insert).
    rewrite list_lookup_insert_ne, list_lookup_insert_eq by (done || lia).
    rewrite commit_run, committed_items, !Nat2Z.id.
    apply list_eq. intros k.
    destruct (decide (k = i)) as [->|Hki]; [|destruct (decide (k = S i)) as [->|HkSi]].
    - rewrite list_lookup_insert_ne by lia.
      by rewrite !list_lookup_insert_eq by (by rewrite ?length_insert).
    - rewrite list_lookup_insert_eq by (by rewrite ?length_insert).
      rewrite list_lookup_insert_ne by lia.
      by rewrite list_lookup_insert_eq by (by rewrite ?length_insert).
    - by rewrite !list_lookup_insert_ne by done. }
  split; [done|]. split.
  - rewrite Hback, !list_fmap_insert. simpl.
    rewrite (list_insert_id (id <$> items) (S i))
      by (by rewrite list_lookup_fmap, Hlower).
    by rewrite list_insert_id by (by rewrite list_lookup_fmap, Hupper).
  - intros Hou Hol. rewrite Hback.
    rewrite !set_order_same by done.
    rewrite (list_insert_id items (S i)) by done.
    by rewrite list_insert_id.
Qed.

End ManagerIdentifiers.

Section ManagerCompositions.
Import Store Manager.

Variable onUpdateGallery : list GalleryItem -> Js World unit.

Lemma filter_all {A} (P : A -> Prop) `{forall x, Decision (P x)} (l : list A) :
  Forall P l -> filter P l = l.
Proof.
  induction 1 as [|x l Hx _ IH]; [done|].
  by rewrite filter_cons, decide_True, IH.
Qed.

Lemma filter_ids (items : list GalleryItem) (item_id : Z) :
  filter (fun item => id item ≠ item_id)
    (imap (fun index item => set_order (Z.of_nat index) item)
       (filter (fun item => id item ≠ item_id) items))
    = imap (fun index item => set_order (Z.of_nat index) item)
        (filter (fun item => id item ≠ item_id) items).
Proof.
  apply filter_all, Forall_lookup_2. intros k item.
  rewrite list_lookup_imap.
  destruct (filter _ items !! k) as [kept|] eqn:Hk; simpl; [|done].
  intros [= <-]. simpl.
  apply list_elem_of_lookup_2, list_elem_of_filter in Hk. tauto.
Qed.

(** X15. Deleting is idempotent: deleting the same identifier a second
    time leaves the list that the first deletion left.  Deleting an
    identifier that no item has leaves an aligned list as it is. *)
Theorem delete_twice (p : Page) (item_id : Z) :
  let items := galleryItems (manager p) in
  let once := items_after (fun rendered =>
                handleDeleteItem onUpdateGallery rendered item_id) p in
  let p1 := snd (run_handler (fun rendered =>
                   handleDeleteItem onUpdateGallery rendered item_id) p) in
  items_after (fun rendered =>
    handleDeleteItem onUpdateGallery rendered item_id) p1 = once /\
  (item_id ∉ id <$> items -> aligned items -> once = items).
Proof.
  intros items once p1.
  assert (once = imap (fun index item => set_order (Z.of_nat index) item)
                   (filter (fun item => id item ≠ item_id) items)) as Honce.
  { unfold once. apply delete_items. }
  assert (galleryItems (manager p1) = once) as Hp1 by reflexivity.
  split.
  - rewrite delete_items, Hp1, Honce, filter_ids.
    apply aligned_imap_id, aligned_imap.
  - intros Hnot Hal. rewrite Honce.
    rewrite filter_all; [by apply aligned_imap_id|].
    apply Forall_forall. intros item Hin Hid. apply Hnot.
    rewrite <- Hid. by apply list_elem_of_fmap_2.
Qed.

(** X16. Adding an item and then deleting the identifier it was given
    restores an aligned list, provided no item had that identifier
    before. *)
Theorem add_then_delete (p : Page) :
  let items := galleryItems (manager p) in
  let p1 := snd (run_handler (handleAddGalleryItem onUpdateGallery) p) in
  new_title (newItem (manager p)) ≠ EmptyString ->
  new_description (newItem (manager p)) ≠ EmptyString ->
  aligned items ->
  clock (world p) ∉ id <$> items ->
  items_after (fun rendered =>
    handleDeleteItem onUpdateGallery rendered (clock (world p))) p1 = items.
Proof.
  intros items p1 Ht Hd Hal Hfresh.
  rewrite delete_items. unfold p1.
  rewrite add_run by (apply andb_true_iff; split; by apply nonempty_true).
  fold items. rewrite filter_app, filter_cons. simpl.
  rewrite decide_False by (intros Hne; by apply Hne).
  rewrite filter_nil, app_nil_r.
  rewrite filter_all; [by apply aligned_imap_id|].
  apply Forall_forall. intros item Hin Hid. apply Hfresh.
  rewrite <- Hid. by apply list_elem_of_fmap_2.
Qed.

(** X17. With distinct identifiers, [handleSaveEditedItem] replaces the
    one item that has the identifier of the updated item, wholesale:
    the list keeps its length, the other positions are untouched, and
    the order and the featured flag at that position are those of the
    updated item, missing when it has none. *)
Theorem edit_replaces_one_item (p : Page) (updatedItem : GalleryItem)
    (k : nat) (old : GalleryItem) :
  let items := galleryItems (manager p) in
  NoDup (id <$> items) ->
  items !! k = Some old ->
  id old = id updatedItem ->
  run_handler (fun rendered =>
      handleSaveEditedItem onUpdateGallery rendered updatedItem) p
    = committed onUpdateGallery (<[k := updatedItem]> items) p /\
  length (<[k := updatedItem]> items) = length items /\
  <[k := updatedItem]> items !! k = Some updatedItem /\
  (forall j : nat, j <> k -> <[k := updatedItem]> items !! j = items !! j).
Proof.
  intros items Hnodup Hk Hid. split_and!.
  - unfold run_handler, handleSaveEditedItem. fold items.
    rewrite <- Hid, (replace_by_id items k old updatedItem Hnodup Hk).
    apply commit_run.
  - apply length_insert.
  - apply list_lookup_insert_eq. by eapply lookup_lt_Some.
  - intros j Hj. by apply list_lookup_insert_ne.
Qed.

End ManagerCompositions.

Section StoreAndManager.
Import Store Manager.

(** X18. An aligned list is persisted as it is and read back as it is:
    the entry holds the list, the event carries it, and
    [getGalleryItems] returns it. *)
Theorem aligned_list_round_trip (g : GalleryType) (items : list GalleryItem)
    (w : World) :
  window_defined w = true ->
  storage_accepts w (storage_key g) (JsonText items) = true ->
  aligned items ->
  localStorage (snd (saveGalleryItems g items w)) !! storage_key g
    = Some (JsonText items) /\
  dispatched (snd (saveGalleryItems g items w)) = dispatched w ++ [mkEvent g items] /\
  fst (getGalleryItems g (snd (saveGalleryItems g items w))) = Returned items.
Proof.
  intros Hwin Hacc Hal.
  rewrite saveGalleryItems_run, Hwin, (aligned_itemsWithOrder items Hal), Hacc.
  simpl. split; [apply lookup_insert_eq|]. split; [done|].
  rewrite getGalleryItems_run. simpl. rewrite Hwin, lookup_insert_eq.
  simpl. f_equal. by apply sort_by_order_id, aligned_sorted.
Qed.

Lemma updateGalleryItem_run g updatedItem w :
  updateGalleryItem g updatedItem w =
    if window_defined w then
      saveGalleryItems g
        ((fun item => if bool_decide (id item = id updatedItem)
                      then updatedItem else item)
           <$> default [] (match fst (getGalleryItems g w) with
                           | Returned items => Some items
                           | _ => None
                           end))
        (snd (getGalleryItems g w))
    else (Returned tt, w).
Proof.
  unfold updateGalleryItem.
  unfold mbind at 1, Js_bind, bind at 1, gets.
  destruct (window_defined w); simpl; [|done].
  destruct (getGalleryItems_returns g w) as (items & w1 & Hrun & Hwin1 & _).
  unfold try_catch, mbind, Js_bind, bind. rewrite Hrun. simpl.
  rewrite saveGalleryItems_run.
  destruct (window_defined w1); [|done].
  by destruct (storage_accepts w1 _ _).
Qed.

(** X19. The two ways of editing agree.  When the manager holds the
    list that [getGalleryItems] returns, [handleSaveEditedItem] with the
    store as [onUpdateGallery] leaves the same entries and the same
    dispatched events as [updateGalleryItem] does. *)
Theorem edit_paths_agree (g : GalleryType) (updatedItem : GalleryItem) (p : Page) :
  fst (getGalleryItems g (world p)) = Returned (galleryItems (manager p)) ->
  let by_store := snd (updateGalleryItem g updatedItem (world p)) in
  let by_manager :=
    world (snd (run_handler (fun rendered =>
             handleSaveEditedItem (saveGalleryItems g) rendered updatedItem) p)) in
  localStorage by_store = localStorage by_manager /\
  dispatched by_store = dispatched by_manager.
Proof.
  intros Hget by_store by_manager.
  unfold by_manager, run_handler, handleSaveEditedItem.
  rewrite commit_run. unfold committed.
  unfold by_store. rewrite updateGalleryItem_run, Hget. simpl.
  destruct (getGalleryItems_returns g (world p))
    as (items' & w1 & Hrun & Hwin1 & Hstore1 & Hacc1 & Hev1).
  rewrite Hrun. simpl.
  destruct (window_defined (world p)) eqn:Hwin.
  - rewrite !saveGalleryItems_run, Hwin1, Hwin, Hacc1.
    destruct (storage_accepts (world p) (storage_key g) _); simpl;
      by rewrite Hstore1, Hev1.
  - by rewrite saveGalleryItems_run, Hwin.
Qed.

End StoreAndManager.

Section AddOutcomes.
Import Manager.

Variable onUpdateGallery : list GalleryItem -> Js World unit.

Ltac run_add :=
  unfold run_handler, handleAddGalleryItem,
    setIsProcessing, setGalleryItems, setNewItem, setUploadSuccess,
    setUploadError, setTimeout, in_manager, in_world;
  js_unfold.

(** X20. When [onUpdateGallery] returns, a valid add ends in the
    success state: the call returns, the form is blank again, the
    success flag is set and its timer started, the processing flag is
    off and the error message is what it was.  The new item's image
    reference is the form's reference, or the data URL when the
    reference was a [blob:] one and its conversion succeeded. *)
Theorem add_success (p : Page) :
  let form := newItem (manager p) in
  let ended := run_handler (handleAddGalleryItem onUpdateGallery) p in
  new_title form ≠ EmptyString ->
  new_description form ≠ EmptyString ->
  (forall items w, fst (onUpdateGallery items w) = Returned tt) ->
  fst ended = Returned tt /\
  newItem (manager (snd ended)) = blank_form /\
  uploadSuccess (manager (snd ended)) = true /\
  isProcessing (manager (snd ended)) = false /\
  uploadError (manager (snd ended)) = uploadError (manager p) /\
  timeouts (manager (snd ended)) = timeouts (manager p) ++ [(ClearUploadSuccess, 3000)] /\
  exists added,
    galleryItems (manager (snd ended)) = galleryItems (manager p) ++ [added] /\
    imageUrl added =
      if String.prefix "blob:" (new_imageUrl form) then
        match blob_to_data_url (world p) (new_imageUrl form) with
        | inr base64 => base64
        | inl _ => new_imageUrl form
        end
      else new_imageUrl form.
Proof.
  intros form ended Ht Hd Hreturns.
  assert (nonempty (new_title form) && nonempty (new_description form) = true)
    as Hvalid by (apply andb_true_iff; split; by apply nonempty_true).
  assert (exists added,
    galleryItems (manager (snd ended)) = galleryItems (manager p) ++ [added] /\
    imageUrl added =
      if String.prefix "blob:" (new_imageUrl form) then
        match blob_to_data_url (world p) (new_imageUrl form) with
        | inr base64 => base64
        | inl _ => new_imageUrl form
        end
      else new_imageUrl form) as Hadded.
  { eexists. split; [by apply add_run|]. done. }
  revert Hadded. unfold ended. run_add. fold form. rewrite Hvalid. simpl.
  destruct (String.prefix "blob:" (new_imageUrl form)); simpl;
    [destruct (blob_to_data_url (world p) (new_imageUrl form)); simpl|];
    (match goal with
     | |- context [onUpdateGallery ?l ?w] =>
         pose proof (Hreturns l w) as Hret;
         destruct (onUpdateGallery l w) as [[[]| |] w']; simpl in *; try done
     end).
Qed.

(** X21. When [onUpdateGallery] throws, the add is committed half: the
    exception is caught and the error message set, yet the in-memory
    list has already grown by the new item; the form is not reset, the
    success flag is untouched and the processing flag is off. *)
Theorem add_callback_throws (p : Page) (e : Exn) :
  let form := newItem (manager p) in
  let ended := run_handler (handleAddGalleryItem onUpdateGallery) p in
  new_title form ≠ EmptyString ->
  new_description form ≠ EmptyString ->
  (forall items w, fst (onUpdateGallery items w) = Threw e) ->
  fst ended = Returned tt /\
  length (galleryItems (manager (snd ended))) = S (length (galleryItems (manager p))) /\
  newItem (manager (snd ended)) = form /\
  uploadSuccess (manager (snd ended)) = uploadSuccess (manager p) /\
  uploadError (manager (snd ended))
    = "Error al procesar la imagen. Intente nuevamente." /\
  isProcessing (manager (snd ended)) = false /\
  last (console (world (snd ended))) = Some (ErrorAddImage e).
Proof.
  intros form ended Ht Hd Hthrows.
  assert (nonempty (new_title form) && nonempty (new_description form) = true)
    as Hvalid by (apply andb_true_iff; split; by apply nonempty_true).
  assert (length (galleryItems (manager (snd ended)))
          = S (length (galleryItems (manager p)))) as Hlen.
  { unfold ended. rewrite add_run by done. rewrite length_app. simpl. lia. }
  revert Hlen. unfold ended. run_add. fold form. rewrite Hvalid. simpl.
  destruct (String.prefix "blob:" (new_imageUrl form)); simpl;
    [destruct (blob_to_data_url (world p) (new_imageUrl form)); simpl|];
    (match goal with
     | |- context [onUpdateGallery ?l ?w] =>
         pose proof (Hthrows l w) as Hthrow;
         destruct (onUpdateGallery l w) as [[[]|e'|] w']; simpl in *; try done
     end);
    injection Hthrow as ->; intros Hlen; split_and!; try done;
    apply last_snoc.
Qed.

End AddOutcomes.

Section ManagerUpload.
Import Manager.

Variables File Blob : Type.
Variable optimizeImage : File -> Z -> Js World Blob.
Variable createObjectURL : Blob -> Js World string.
Variable report_processing_error : Exn -> Js World unit.

Ltac run_upload :=
  unfold run_handler, handleImageUpload,
    setIsProcessing, setNewItem, setUploadSuccess,
    setUploadError, setTimeout, in_manager, in_world;
  js_unfold.

(** X22. A successful image upload changes the form's image reference
    and nothing else of the form: the reference is the object URL, the
    title and the description are kept.  The gallery list is not
    touched, the message is cleared, the success flag and the processing
    flag are off. *)
Theorem image_upload_success (p : Page) (file : File) (blob : Blob) (url : string)
    (w1 w2 : World) :
  let ended := run_handler (fun rendered =>
      handleImageUpload File Blob optimizeImage createObjectURL
        report_processing_error rendered (Some file)) p in
  optimizeImage file 1200 (world p) = (Returned blob, w1) ->
  createObjectURL blob w1 = (Returned url, w2) ->
  fst ended = Returned tt /\
  world (snd ended) = w2 /\
  newItem (manager (snd ended)) = form_with_imageUrl url (newItem (manager p)) /\
  new_title (newItem (manager (snd ended))) = new_title (newItem (manager p)) /\
  new_description (newItem (manager (snd ended)))
    = new_description (newItem (manager p)) /\
  galleryItems (manager (snd ended)) = galleryItems (manager p) /\
  uploadError (manager (snd ended)) = EmptyString /\
  uploadSuccess (manager (snd ended)) = false /\
  isProcessing (manager (snd ended)) = false.
Proof.
  intros ended Hopt Hurl. unfold ended. run_upload. simpl.
  rewrite Hopt. simpl. rewrite Hurl. simpl. done.
Qed.

(** X23. A failed image upload (the optimisation or the object URL
    throws) is swallowed: the call returns, the form and the gallery
    list are what they were, the error message is set and its timer
    started, the success flag and the processing flag are off. *)
Theorem image_upload_failure (p : Page) (file : File) (e : Exn) :
  let ended := run_handler (fun rendered =>
      handleImageUpload File Blob optimizeImage createObjectURL
        report_processing_error rendered (Some file)) p in
  (fst (optimizeImage file 1200 (world p)) = Threw e \/
   exists blob,
     fst (optimizeImage file 1200 (world p)) = Returned blob /\
     fst (createObjectURL blob (snd (optimizeImage file 1200 (world p)))) = Threw e) ->
  (forall error w, fst (report_processing_error error w) = Returned tt) ->
  fst ended = Returned tt /\
  newItem (manager (snd ended)) = newItem (manager p) /\
  galleryItems (manager (snd ended)) = galleryItems (manager p) /\
  uploadError (manager (snd ended))
    = "Error al procesar la imagen. Intente nuevamente." /\
  timeouts (manager (snd ended)) = timeouts (manager p) ++ [(ClearUploadError, 3000)] /\
  uploadSuccess (manager (snd ended)) = false /\
  isProcessing (manager (snd ended)) = false.
Proof.
  intros ended Hfail Hreport. unfold ended. run_upload. simpl.
  destruct (optimizeImage file 1200 (world p)) as [[blob|e1|] w1] eqn:Hopt; simpl in *.
  - destruct Hfail as [Hfail|(blob' & Hblob & Hfail)]; [done|].
    injection Hblob as <-.
    destruct (createObjectURL blob w1) as [[url|e2|] w2]; simpl in *; try done.
    pose proof (Hreport e2 w2) as Hr.
    by destruct (report_processing_error e2 w2) as [[[]| |] w3]; simpl in *.
  - pose proof (Hreport e1 w1) as Hr.
    by destruct (report_processing_error e1 w1) as [[[]| |] w3]; simpl in *.
  - by destruct Hfail as [Hfail|(blob' & Hblob & Hfail)].
Qed.

End ManagerUpload.

(** * Properties of the item editor dialog *)

Section DialogUpload.
Import Dialog.

Variable Parent : Type.
Variables File Blob : Type.
Variable file_name : File -> string.
Variable file_type : File -> string.
Variable new_File : Blob -> string -> string -> File.
Variable optimizeImage : File -> Z -> Js World Blob.
Variable fileToDataUrl : File -> Js World string.
Variable report_processing_error : Exn -> Js World unit.

Ltac run_dialog_upload :=
  unfold handleImageUpload, setIsProcessing, setEditedItem, setUploadError,
    setTimeout, in_dialog, in_world;
  js_unfold.

(** X24. A successful image replacement in the dialog stores the data
    URL of the optimised image, re-wrapped under the chosen file's name
    and type, in the working copy and changes nothing else of it; the
    parent is not touched, the message is cleared and the processing
    flag is off. *)
Theorem dialog_upload_success (s : Mounted Parent) (file : File) (blob : Blob)
    (base64 : string) (w1 w2 : World) :
  let ended :=
    handleImageUpload Parent File Blob file_name file_type new_File
      optimizeImage fileToDataUrl report_processing_error (dialog s) (Some file) s in
  optimizeImage file 1200 (world s) = (Returned blob, w1) ->
  fileToDataUrl (new_File blob (file_name file) (file_type file)) w1
    = (Returned base64, w2) ->
  fst ended = Returned tt /\
  world (snd ended) = w2 /\
  parent (snd ended) = parent s /\
  editedItem (dialog (snd ended)) = set_imageUrl base64 (editedItem (dialog s)) /\
  id (editedItem (dialog (snd ended))) = id (editedItem (dialog s)) /\
  order (editedItem (dialog (snd ended))) = order (editedItem (dialog s)) /\
  uploadError (dialog (snd ended)) = EmptyString /\
  isProcessing (dialog (snd ended)) = false.
Proof.
  intros ended Hopt Hurl. unfold ended. run_dialog_upload. simpl.
  rewrite Hopt. simpl. rewrite Hurl. simpl. done.
Qed.

(** X25. A failed image replacement in the dialog (the optimisation or
    the conversion throws) is swallowed: the call returns, the working
    copy and the parent are what they were, the error message is set and
    its timer started, and the processing flag is off. *)
Theorem dialog_upload_failure (s : Mounted Parent) (file : File) (e : Exn) :
  let ended :=
    handleImageUpload Parent File Blob file_name file_type new_File
      optimizeImage fileToDataUrl report_processing_error (dialog s) (Some file) s in
  (fst (optimizeImage file 1200 (world s)) = Threw e \/
   exists blob,
     fst (optimizeImage file 1200 (world s)) = Returned blob /\
     fst (fileToDataUrl (new_File blob (file_name file) (file_type file))
            (snd (optimizeImage file 1200 (world s)))) = Threw e) ->
  (forall error w, fst (report_processing_error error w) = Returned tt) ->
  fst ended = Returned tt /\
  editedItem (dialog (snd ended)) = editedItem (dialog s) /\
  parent (snd ended) = parent s /\
  uploadError (dialog (snd ended))
    = "Error al procesar la imagen. Intente nuevamente." /\
  timeouts (dialog (snd ended))
    = timeouts (dialog s) ++ [(Manager.ClearUploadError, 3000)] /\
  isProcessing (dialog (snd ended)) = false.
Proof.
  intros ended Hfail Hreport. unfold ended. run_dialog_upload. simpl.
  destruct (optimizeImage file 1200 (world s)) as [[blob|e1|] w1] eqn:Hopt; simpl in *.
  - destruct Hfail as [Hfail|(blob' & Hblob & Hfail)]; [done|].
    injection Hblob as <-.
    destruct (fileToDataUrl _ w1) as [[url|e2|] w2]; simpl in *; try done.
    pose proof (Hreport e2 w2) as Hr.
    by destruct (report_processing_error e2 w2) as [[[]| |] w3]; simpl in *.
  - pose proof (Hreport e1 w1) as Hr.
    by destruct (report_processing_error e1 w1) as [[[]| |] w3]; simpl in *.
  - by destruct Hfail as [Hfail|(blob' & Hblob & Hfail)].
Qed.

End DialogUpload.

Section DialogSave.
Import Manager.

Variable onUpdateGallery : list GalleryItem -> Js World unit.

(** X26. Saving in the dialog commits the working copy: in a list with
    distinct identifiers the item that has the working copy's identifier
    is replaced by the working copy, the list is handed to
    [onUpdateGallery], and when that returns the dialog is closed. *)
Theorem dialog_save_commits (s : Dialog.Mounted ManagerState) (k : nat)
    (old : GalleryItem) :
  let items := galleryItems (Dialog.parent s) in
  let edited := Dialog.editedItem (Dialog.dialog s) in
  NoDup (id <$> items) ->
  items !! k = Some old ->
  id old = id edited ->
  (forall l w, fst (onUpdateGallery l w) = Returned tt) ->
  fst (save_in_manager onUpdateGallery s) = Returned tt /\
  galleryItems (Dialog.parent (snd (save_in_manager onUpdateGallery s))) = <[k := edited]> items /\
  isEditDialogOpen (Dialog.parent (snd (save_in_manager onUpdateGallery s))) = false /\
  Dialog.world (snd (save_in_manager onUpdateGallery s))
    = snd (onUpdateGallery (<[k := edited]> items) (Dialog.world s)) /\
  Dialog.dialog (snd (save_in_manager onUpdateGallery s)) = Dialog.dialog s.
Proof.
  intros items edited Hnodup Hk Hid Hreturns.
  unfold save_in_manager, Dialog.handleSave, Dialog.in_parent, on_page,
    handleSaveEditedItem, setIsEditDialogOpen, setGalleryItems, in_manager, in_world.
  js_unfold. simpl. fold items edited.
  rewrite <- Hid, (replace_by_id items k old edited Hnodup Hk).
  pose proof (Hreturns (<[k := edited]> items) (Dialog.world s)) as Hret.
  by destruct (onUpdateGallery (<[k := edited]> items) (Dialog.world s))
    as [[[]| |] w']; simpl in *.
Qed.

(** X27. Neither [handleSave] nor [handleSaveEditedItem] guards the
    call of [onUpdateGallery]: when it throws, the exception leaves
    [handleSave], the dialog stays open, and the in-memory list has
    already been replaced. *)
Theorem dialog_save_propagates (s : Dialog.Mounted ManagerState) (e : Exn) :
  let items := galleryItems (Dialog.parent s) in
  let edited := Dialog.editedItem (Dialog.dialog s) in
  (forall l w, fst (onUpdateGallery l w) = Threw e) ->
  fst (save_in_manager onUpdateGallery s) = Threw e /\
  isEditDialogOpen (Dialog.parent (snd (save_in_manager onUpdateGallery s)))
    = isEditDialogOpen (Dialog.parent s) /\
  galleryItems (Dialog.parent (snd (save_in_manager onUpdateGallery s)))
    = (fun item => if bool_decide (id item = id edited) then edited else item)
        <$> items.
Proof.
  intros items edited Hthrows.
  unfold save_in_manager, Dialog.handleSave, Dialog.in_parent, on_page,
    handleSaveEditedItem, setIsEditDialogOpen, setGalleryItems, in_manager, in_world.
  js_unfold. simpl. fold items edited.
  match goal with
  | |- context [onUpdateGallery ?l ?w] =>
      pose proof (Hthrows l w) as Hthrow;
      destruct (onUpdateGallery l w) as [[[]|e'|] w']; simpl in *; try done
  end.
Qed.

End DialogSave.

(** * The further properties at concrete inputs *)

Section FurtherExamples.
Import Store Manager.

Lemma saveGalleryItems_returns g items w :
  fst (saveGalleryItems g items w) = Returned tt.
Proof.
  rewrite saveGalleryItems_run.
  destruct (window_defined w); [|done]. by destruct (storage_accepts w _ _).
Qed.

Ltac solve_aligned :=
  intros [|[|[|?]]] ? Hlookup; simpl in Hlookup; try discriminate Hlookup;
  injection Hlookup as <-; reflexivity.

Ltac solve_distinct :=
  apply (bool_decide_unpack _); vm_compute; exact I.



Lemma move_up_then_down_witness :
  let a := mkItem 1 "/a.png" "A" "d" None (Some 0) None in
  let b := mkItem 2 "/b.png" "B" "d" None (Some 1) None in
  let p := mkPage (browser ∅ 5) (initial_state [a; b]) in
  let p1 := snd (run_handler (fun rendered =>
                   handleMoveUp (saveGalleryItems hero) rendered 1) p) in
  items_after (fun rendered =>
    handleMoveDown (saveGalleryItems hero) rendered 0) p1 = [a; b].
Proof.
  intros a b p p1.
  destruct (move_up_then_down (saveGalleryItems hero) p 0 a b eq_refl eq_refl)
    as (_ & _ & Hback).
  exact (Hback eq_refl eq_refl).
Defined.

Lemma add_then_delete_witness :
  let a := mkItem 1 "/a.png" "A" "d" None (Some 0) None in
  let form := mkNewItem "/c.png" "C" "d" None None None in
  let p := mkPage (browser ∅ 5) (with_newItem form (initial_state [a])) in
  let p1 := snd (run_handler (handleAddGalleryItem (saveGalleryItems hero)) p) in
  items_after (fun rendered =>
    handleDeleteItem (saveGalleryItems hero) rendered 5) p1 = [a].
Proof.
  intros a form p p1.
  apply (add_then_delete (saveGalleryItems hero) p).
  - discriminate.
  - discriminate.
  - solve_aligned.
  - intros Hin. apply list_elem_of_In in Hin. simpl in Hin.
    destruct Hin as [H|[]]. discriminate H.
Defined.

Lemma edit_replaces_one_item_witness :
  let a := mkItem 1 "/a.png" "A" "d" None (Some 0) None in
  let b := mkItem 2 "/b.png" "B" "d" None (Some 1) None in
  let b' := mkItem 2 "/b.png" "B, edited" "d" None None None in
  let p := mkPage (browser ∅ 5) (initial_state [a; b]) in
  run_handler (fun rendered =>
      handleSaveEditedItem (saveGalleryItems hero) rendered b') p
    = committed (saveGalleryItems hero) [a; b'] p.
Proof.
  intros a b b' p.
  destruct (edit_replaces_one_item (saveGalleryItems hero) p b' 1 b)
    as (Hrun & _); [solve_distinct|reflexivity|reflexivity|].
  exact Hrun.
Defined.

Lemma aligned_list_round_trip_witness :
  let a := mkItem 1 "/a.png" "A" "d" None (Some 0) None in
  let b := mkItem 2 "/b.png" "B" "d" None (Some 1) None in
  fst (getGalleryItems hero (snd (saveGalleryItems hero [a; b] (browser ∅ 5))))
    = Returned [a; b].
Proof.
  intros a b.
  destruct (aligned_list_round_trip hero [a; b] (browser ∅ 5))
    as (_ & _ & Hget); [reflexivity|reflexivity|solve_aligned|].
  exact Hget.
Defined.

Lemma edit_paths_agree_witness :
  let b' := mkItem 2 "/b.png" "B, edited" "d" None None None in
  let p := mkPage (browser ∅ 5) (initial_state (INITIAL_GALLERIES eventos)) in
  localStorage (snd (updateGalleryItem eventos b' (world p)))
    = localStorage (world (snd (run_handler (fun rendered =>
        handleSaveEditedItem (saveGalleryItems eventos) rendered b') p))).
Proof.
  intros b' p.
  destruct (edit_paths_agree eventos b' p) as [Hstore _]; [reflexivity|].
  exact Hstore.
Defined.

Lemma add_success_witness :
  let form := mkNewItem "/c.png" "C" "d" None None None in
  let p := mkPage (browser ∅ 5) (with_newItem form (initial_state [])) in
  newItem (manager (snd (run_handler
    (handleAddGalleryItem (saveGalleryItems hero)) p))) = blank_form.
Proof.
  intros form p.
  destruct (add_success (saveGalleryItems hero) p) as (_ & Hform & _).
  - discriminate.
  - discriminate.
  - intros items w. apply saveGalleryItems_returns.
  - exact Hform.
Defined.

Lemma add_callback_throws_witness :
  let form := mkNewItem "/c.png" "C" "d" None None None in
  let p := mkPage (browser ∅ 5) (with_newItem form (initial_state [])) in
  let failing := fun (_ : list GalleryItem) (w : World) =>
    (@Threw unit (CallbackError "parent failed"), w) in
  length (galleryItems (manager (snd (run_handler
    (handleAddGalleryItem failing) p)))) = 1%nat.
Proof.
  intros form p failing.
  destruct (add_callback_throws failing p (CallbackError "parent failed"))
    as (_ & Hlen & _).
  - discriminate.
  - discriminate.
  - reflexivity.
  - exact Hlen.
Defined.

End FurtherExamples.

Section UploadExamples.
Import Manager.

Lemma image_upload_success_witness :
  let optimize := fun (file : string) (_ : Z) => @ret World string file in
  let object_url := fun (blob : string) => @ret World string ("blob:" +:+ blob) in
  let report := fun (_ : Exn) => @ret World unit tt in
  let p := mkPage (browser ∅ 5) (initial_state []) in
  new_imageUrl (newItem (manager (snd (run_handler (fun rendered =>
    handleImageUpload string string optimize object_url report rendered
      (Some "photo")) p)))) = "blob:photo".
Proof.
  intros optimize object_url report p.
  destruct (image_upload_success string string optimize object_url report p
              "photo" "photo" "blob:photo" (world p) (world p) eq_refl eq_refl)
    as (_ & _ & Hform & _).
  rewrite Hform. reflexivity.
Defined.

Lemma image_upload_failure_witness :
  let optimize := fun (file : string) (_ : Z) =>
    @throw World string (FetchError file) in
  let object_url := fun (blob : string) => @ret World string ("blob:" +:+ blob) in
  let report := fun (_ : Exn) => @ret World unit tt in
  let p := mkPage (browser ∅ 5) (initial_state []) in
  newItem (manager (snd (run_handler (fun rendered =>
    handleImageUpload string string optimize object_url report rendered
      (Some "photo")) p))) = blank_form.
Proof.
  intros optimize object_url report p.
  destruct (image_upload_failure string string optimize object_url report p
              "photo" (FetchError "photo"))
    as (_ & Hform & _).
  - left. reflexivity.
  - reflexivity.
  - exact Hform.
Defined.

Lemma dialog_upload_success_witness :
  let a := mkItem 1 "/a.png" "A" "d" None (Some 0) None in
  let optimize := fun (file : string) (_ : Z) => @ret World string file in
  let to_data_url := fun (file : string) => @ret World string ("data:" +:+ file) in
  let report := fun (_ : Exn) => @ret World unit tt in
  let s := Dialog.mkMounted (browser ∅ 5) (Dialog.initial_state a) tt in
  Dialog.editedItem (Dialog.dialog (snd (
    Dialog.handleImageUpload unit string string (fun f => f) (fun _ => "image/png")
      (fun blob _ _ => blob) optimize to_data_url report
      (Dialog.dialog s) (Some "photo") s)))
    = set_imageUrl "data:photo" a.
Proof.
  intros a optimize to_data_url report s.
  destruct (dialog_upload_success unit string string (fun f => f)
              (fun _ => "image/png") (fun blob _ _ => blob)
              optimize to_data_url report s
              "photo" "photo" "data:photo" (Dialog.world s) (Dialog.world s)
              eq_refl eq_refl)
    as (_ & _ & _ & Hedited & _).
  exact Hedited.
Defined.

Lemma dialog_upload_failure_witness :
  let a := mkItem 1 "/a.png" "A" "d" None (Some 0) None in
  let optimize := fun (file : string) (_ : Z) => @ret World string file in
  let to_data_url := fun (file : string) =>
    @throw World string (FetchError file) in
  let report := fun (_ : Exn) => @ret World unit tt in
  let s := Dialog.mkMounted (browser ∅ 5) (Dialog.initial_state a) tt in
  Dialog.editedItem (Dialog.dialog (snd (
    Dialog.handleImageUpload unit string string (fun f => f) (fun _ => "image/png")
      (fun blob _ _ => blob) optimize to_data_url report
      (Dialog.dialog s) (Some "photo") s))) = a.
Proof.
  intros a optimize to_data_url report s.
  destruct (dialog_upload_failure unit string string (fun f => f)
              (fun _ => "image/png") (fun blob _ _ => blob)
              optimize to_data_url report s "photo" (FetchError "photo"))
    as (_ & Hedited & _).
  - right. exists "photo". split; reflexivity.
  - reflexivity.
  - exact Hedited.
Defined.

Lemma dialog_save_commits_witness :
  let a := mkItem 1 "/a.png" "A" "d" None (Some 0) None in
  let b := mkItem 2 "/b.png" "B" "d" None (Some 1) None in
  let b' := Dialog.set_title "B, edited" b in
  let s := Dialog.mkMounted (browser ∅ 5)
             (Dialog.mkDialog b' false EmptyString [])
             (with_isEditDialogOpen true (initial_state [a; b])) in
  galleryItems (Dialog.parent (snd (save_in_manager
    (Store.saveGalleryItems hero) s))) = [a; b'] /\
  isEditDialogOpen (Dialog.parent (snd (save_in_manager
    (Store.saveGalleryItems hero) s))) = false.
Proof.
  intros a b b' s.
  destruct (dialog_save_commits (Store.saveGalleryItems hero) s 1 b)
    as (_ & Hitems & Hclosed & _).
  - apply (bool_decide_unpack _). vm_compute. exact I.
  - reflexivity.
  - reflexivity.
  - intros l w. rewrite saveGalleryItems_run.
    destruct (window_defined w); [|reflexivity].
    destruct (storage_accepts w _ _); reflexivity.
  - split; [exact Hitems|exact Hclosed].
Defined.

Lemma dialog_save_propagates_witness :
  let a := mkItem 1 "/a.png" "A" "d" None (Some 0) None in
  let failing := fun (_ : list GalleryItem) (w : World) =>
    (@Threw unit (CallbackError "parent failed"), w) in
  let s := Dialog.mkMounted (browser ∅ 5) (Dialog.initial_state a)
             (with_isEditDialogOpen true (initial_state [a])) in
  fst (save_in_manager failing s) = Threw (CallbackError "parent failed") /\
  isEditDialogOpen (Dialog.parent (snd (save_in_manager failing s))) = true.
Proof.
  intros a failing s.
  destruct (dialog_save_propagates failing s (CallbackError "parent failed"))
    as (Hthrow & Hopen & _).
  - reflexivity.
  - split; [exact Hthrow|exact Hopen].
Defined.

End UploadExamples.

(** * The manager on top of the store *)

Section InStep.
Import Store Manager.

Variable g : GalleryType.







End InStep.

Section InStepExample.
Import Store Manager.


End InStepExample.
